(** * Patsy user utilities: [balanced] and [demo_data]

    A shallow embedding of [charlton/user_util.py].  Python dictionaries
    are finite maps ([gmap]) with string keys, Python sets are [gset]s,
    Python integers are [Z], and exceptions are the left summand of a sum
    type.  The pseudo-random generator of numpy is an interface
    ([RandomState]) whose state is threaded explicitly. *)

From stdpp Require Import gmap strings list fin_maps sorting pretty.

Local Open Scope Z_scope.

(** ** Python built-ins *)

(** [sorted(xs)] on strings, which Python compares byte by byte
    ([String.le]). *)
Definition sorted (xs : list string) : list string := merge_sort String.le xs.

(** Iterating over a dictionary yields its keys. *)
Definition keys {V} (d : gmap string V) : list string := (map_to_list d).*1.

(** [d.values()] *)
Definition values {V} (d : gmap string V) : list V := (map_to_list d).*2.

Section lists.
Context {A : Type}.

(** [xs * n]: the list concatenated with itself [n] times; empty when
    [n] is not positive. *)
Definition list_mul (xs : list A) (n : Z) : list A :=
  mjoin (replicate (Z.to_nat n) xs).

(** [zip] applied to the unpacked [rows]: the i-th result collects the
    i-th element of every row, up to the length of the shortest row;
    [zip()] is empty. *)
Fixpoint zip_star (rows : list (list A)) : list (list A) :=
  match rows with
  | [] => []
  | r :: rs =>
      match rs with
      | [] => (λ x, [x]) <$> r
      | _ :: _ => zip_with cons r (zip_star rs)
      end
  end.

(** Modelled from the spec: [itertools_product] of [patsy.compat], the
    Cartesian product of the pools as a list of tuples, enumerated with
    the last pool varying fastest; the product of no pools is the one
    empty tuple. *)
Fixpoint itertools_product (pools : list (list A)) : list (list A) :=
  match pools with
  | [] => [[]]
  | p :: ps => x ← p; cons x <$> itertools_product ps
  end.
End lists.

(** ** [balanced] *)

(** [["%s%s" % (name, i) for i in xrange(1, level_count + 1)]] *)
Definition level_labels (name : string) (level_count : Z) : list string :=
  (λ i : Z, name +:+ pretty i) <$> seqZ 1 level_count.

Definition balanced (kwargs : gmap string Z) : gmap string (list string) :=
  let repeat := default 1 (kwargs !! "repeat") in
  let kwargs := delete "repeat" kwargs in
  let names := sorted (keys kwargs) in
  let levels := (λ name, level_labels name (kwargs !!! name)) <$> names in
  let values := zip_star (itertools_product levels) in
  foldl (λ data nv, <[nv.1 := list_mul nv.2 repeat]> data) ∅
    (zip names values).

(** ** [demo_data] *)

(** The exceptions a call can raise.  [TypeError] carries the unexpected
    keyword arguments and [PatsyError] the offending name, as the
    messages of the source do. *)
Inductive exn :=
  | TypeError (kwargs : gmap string Z)
  | PatsyError (name : string)
  | IndexError
  | ZeroDivisionError
  | ValueError.

Global Instance exn_eq_dec : EqDecision exn.
Proof. solve_decision. Defined.

Global Instance exn_ret : MRet (sum exn) := λ _ x, inr x.
Global Instance exn_bind : MBind (sum exn) := λ _ _ f m,
  match m with inl e => inl e | inr x => f x end.

(** numpy's [RandomState]: a generator state created from a seed, from
    which standard-normal samples are drawn one after the other.  The
    samples are floats; nothing below depends on what they are. *)
Class RandomState := {
  rng : Type;
  sample : Type;
  seed : Z → rng;
  gauss : rng → sample * rng;
}.

(** A column of the demo data set: a list of level labels or an array
    of samples. *)
Inductive column `{RandomState} :=
  | Levels (labels : list string)
  | Samples (xs : list sample).

Section demo_data.
Context `{RandomState}.

(** [len(column)] *)
Definition column_len (c : column) : nat :=
  match c with Levels l => length l | Samples xs => length xs end.

(** An array of [n] samples is filled by [n] successive draws. *)
Fixpoint draws (n : nat) (r : rng) : list sample * rng :=
  match n with
  | O => ([], r)
  | S n => let '(x, r) := gauss r in
           let '(xs, r) := draws n r in (x :: xs, r)
  end.

(** [r.normal(size=size)]: the next [size] samples of the generator; a
    negative size is refused. *)
Definition normal (r : rng) (size : Z) : exn + list sample * rng :=
  if decide (size < 0) then inl ValueError
  else inr (draws (Z.to_nat size) r).

(** [c in s] for a character [c]. *)
Fixpoint char_in (c : Ascii.ascii) (s : string) : bool :=
  match s with
  | EmptyString => false
  | String c' s => bool_decide (c = c') || char_in c s
  end.

(** The body of the loop over [names]. *)
Definition classify_name (nlevels : Z) (name : string)
    (st : gset string * gmap string Z) : exn + gset string * gmap string Z :=
  let '(numerical, categorical) := st in
  match name with
  | EmptyString => inl IndexError
  | String c _ =>
      if char_in c "abcdefghijklmn" then
        inr (numerical, <[name := nlevels]> categorical)
      else if char_in c "pqrstuvwxyz" then
        inr ({[name]} ∪ numerical, categorical)
      else inl (PatsyError name)
  end.

Fixpoint classify (nlevels : Z) (names : list string)
    (st : gset string * gmap string Z) : exn + gset string * gmap string Z :=
  match names with
  | [] => inr st
  | name :: names => st ← classify_name nlevels name st;
                     classify nlevels names st
  end.

(** [np.prod(xs)]; 1 for the empty list.  numpy multiplies in int64,
    which agrees with [Z] for every design that fits in memory. *)
Definition np_prod (xs : list Z) : Z := foldr Z.mul 1 xs.

(** [int(np.ceil(a * 1.0 / b))]: the quotient rounded up.  The source
    divides in floating point, which is exact in this respect below
    2^52 rows; a zero divisor raises. *)
Definition ceil_div (a b : Z) : exn + Z :=
  if decide (b = 0) then inl ZeroDivisionError else inr (- (- a / b)).

(** The loop over [sorted(numerical)]. *)
Fixpoint fill_numerical (num_rows : Z) (names : list string) (r : rng)
    (data : gmap string column) : exn + gmap string column :=
  match names with
  | [] => inr data
  | name :: names =>
      '(xs, r) ← normal r num_rows;
      fill_numerical num_rows names r (<[name := Samples xs]> data)
  end.

Definition demo_data (names : list string) (kwargs : gmap string Z)
    : exn + gmap string column :=
  let nlevels := default 2 (kwargs !! "nlevels") in
  let kwargs := delete "nlevels" kwargs in
  let min_rows := default 5 (kwargs !! "min_rows") in
  let kwargs := delete "min_rows" kwargs in
  if decide (kwargs ≠ ∅) then inl (TypeError kwargs) else
  '(numerical, categorical) ← classify nlevels names (∅, ∅);
  let balanced_design_size := np_prod (values categorical) in
  repeat ← ceil_div min_rows balanced_design_size;
  let num_rows := repeat * balanced_design_size in
  let data := Levels <$> balanced (<["repeat" := repeat]> categorical) in
  let r := seed 0 in
  fill_numerical num_rows (sorted (elements numerical)) r data.

End demo_data.

(** * Vocabulary of the properties *)

(** ** Tables *)

(** [tile n l] is [l] followed by itself, [n] times in all. *)
Definition tile {A} (n : nat) (l : list A) : list A := mjoin (replicate n l).

(** [stretch n l] repeats every element of [l] [n] times in place. *)
Definition stretch {A} (n : nat) (l : list A) : list A :=
  x ← l; replicate n x.

(** The number of tuples in the product of the pools. *)
Definition product_size {A} (pools : list (list A)) : nat :=
  foldr (λ p n, (length p * n)%nat) 1%nat pools.

(** The columns of the product, described pool by pool: the first pool
    changes slowest, every later column is repeated once per element of
    the pools before it. *)
Fixpoint columns {A} (pools : list (list A)) : list (list A) :=
  match pools with
  | [] => []
  | p :: ps => stretch (product_size ps) p :: (tile (length p) <$> columns ps)
  end.

(** The product of the level counts of some of the factors. *)
Definition count_product (factors : gmap string Z) (ns : list string) : nat :=
  Z.to_nat (np_prod ((λ name, factors !!! name) <$> ns)).

(** Row [i] of a table: the label of every column at index [i]. *)
Definition row (data : gmap string (list string)) (i : nat)
    : gmap string string :=
  omap (λ col : list string, col !! i) data.

(** The number of times [x] occurs in [l]. *)
Definition occurrences {A} `{EqDecision A} (x : A) (l : list A) : nat :=
  length (filter (λ y, y = x) l).

(** ** Names *)

(** The first character of [name] occurs in [s]; false for the empty
    name, which has no first character. *)
Definition first_char_in (s name : string) : bool :=
  match name with
  | EmptyString => false
  | String c _ => char_in c s
  end.

Definition is_categorical (name : string) : bool :=
  first_char_in "abcdefghijklmn" name.

Definition is_numerical (name : string) : bool :=
  first_char_in "pqrstuvwxyz" name.

Definition recognized (name : string) : Prop :=
  is_categorical name ∨ is_numerical name.

Global Instance recognized_dec name : Decision (recognized name).
Proof. unfold recognized. apply _. Defined.

Definition categorical_names (names : list string) : gset string :=
  list_to_set (filter (λ name, is_categorical name) names).

Definition numerical_names (names : list string) : gset string :=
  list_to_set (filter (λ name, is_numerical name) names).

(** The exception raised for a name that is not recognized. *)
Definition name_error (name : string) : exn :=
  match name with
  | EmptyString => IndexError
  | String _ _ => PatsyError name
  end.

(** ** Options and row counts *)

(** The keyword options of a call, and those it does not know. *)
Definition nlevels_of (kwargs : gmap string Z) : Z :=
  default 2 (kwargs !! "nlevels").

Definition min_rows_of (kwargs : gmap string Z) : Z :=
  default 5 (kwargs !! "min_rows").

Definition unexpected (kwargs : gmap string Z) : gmap string Z :=
  delete "min_rows" (delete "nlevels" kwargs).

(** The size of the balanced design over the categorical names. *)
Definition balanced_design_size (nlevels : Z) (names : list string) : Z :=
  nlevels ^ Z.of_nat (size (categorical_names names)).

(** The number of replicates and of rows that [demo_data] settles on. *)
Definition replicates (nlevels min_rows : Z) (names : list string) : Z :=
  - (- min_rows / balanced_design_size nlevels names).

Definition num_rows (nlevels min_rows : Z) (names : list string) : Z :=
  replicates nlevels min_rows names * balanced_design_size nlevels names.

(** The categorical part of the data set. *)
Definition categorical_table (nlevels min_rows : Z) (names : list string)
    : gmap string (list string) :=
  balanced (<["repeat" := replicates nlevels min_rows names]>
              (gset_to_gmap nlevels (categorical_names names))).

(** ** The sample stream *)

(** The generator after [k] draws. *)
Definition advance `{RandomState} (k : nat) (r : rng) : rng :=
  Nat.iter k (λ r, (gauss r).2) r.

(** The [k]-th sample (from 0) of the stream that starts at [r]. *)
Definition nth_sample `{RandomState} (r : rng) (k : nat) : sample :=
  (gauss (advance k r)).1.

(** Samples [i * n .. (i + 1) * n - 1] of the stream. *)
Definition block `{RandomState} (r : rng) (n i : nat) : list sample :=
  nth_sample r <$> seq (i * n) n.


(** A counter standing in for the generator, to run [demo_data] on
    concrete calls. *)
Definition counter : RandomState :=
  {| rng := nat; sample := nat; seed := Z.to_nat; gauss := λ n, (n, S n) |}.

(** * Properties *)

(** ** Tiling and stretching of lists *)

Section tiling.
Context {A : Type}.
Local Open Scope nat_scope.
Implicit Types (l c p : list A) (n m i : nat).

Lemma list_mul_tile l (k : Z) : list_mul l k = tile (Z.to_nat k) l.
Proof. reflexivity. Qed.

Lemma tile_S n l : tile (S n) l = l ++ tile n l.
Proof. reflexivity. Qed.

Lemma stretch_cons n x l : stretch n (x :: l) = replicate n x ++ stretch n l.
Proof. reflexivity. Qed.

Lemma length_tile n l : length (tile n l) = n * length l.
Proof.
  induction n as [|n IH]; [done|].
  rewrite tile_S, length_app, IH. lia.
Qed.

Lemma length_stretch n l : length (stretch n l) = length l * n.
Proof.
  induction l as [|x l IH]; [done|].
  rewrite stretch_cons, length_app, length_replicate, IH. simpl. lia.
Qed.

Lemma tile_1 l : tile 1 l = l.
Proof. unfold tile. simpl. by rewrite app_nil_r. Qed.

Lemma tile_app n m l : tile (n + m) l = tile n l ++ tile m l.
Proof.
  induction n as [|n IH]; [done|].
  change (S n + m) with (S (n + m)). by rewrite !tile_S, IH, app_assoc.
Qed.

Lemma tile_tile n m l : tile n (tile m l) = tile (n * m) l.
Proof.
  induction n as [|n IH]; [done|].
  change (S n * m) with (m + n * m). by rewrite tile_S, tile_app, IH.
Qed.

Lemma lookup_tile n l i :
  i < n * length l → tile n l !! i = l !! (i mod length l).
Proof.
  revert i. induction n as [|n IH]; intros i Hi; [lia|].
  rewrite tile_S. destruct (decide (i < length l)) as [Hlt|Hge].
  - by rewrite lookup_app_l, Nat.mod_small.
  - rewrite lookup_app_r, IH by lia. f_equal.
    replace i with (i - length l + 1 * length l) at 2 by lia.
    by rewrite Nat.Div0.mod_add.
Qed.

Lemma lookup_tile_prefix n l i :
  0 < n → i < length l → tile n l !! i = l !! i.
Proof.
  intros Hn Hi. destruct n as [|n]; [lia|].
  by rewrite tile_S, lookup_app_l.
Qed.

Lemma lookup_stretch n l i : 0 < n → stretch n l !! i = l !! (i / n).
Proof.
  intros Hn. revert i. induction l as [|x l IH]; intros i.
  { by rewrite !lookup_nil. }
  rewrite stretch_cons. destruct (decide (i < n)) as [Hlt|Hge].
  - rewrite lookup_app_l by (rewrite length_replicate; lia).
    rewrite Nat.div_small by done. by apply lookup_replicate_2.
  - rewrite lookup_app_r by (rewrite length_replicate; lia).
    rewrite length_replicate, IH.
    replace i with (i - n + 1 * n) at 2 by lia.
    rewrite Nat.div_add by lia. by rewrite Nat.add_1_r.
Qed.

Lemma elem_of_tile n l x : 0 < n → x ∈ tile n l ↔ x ∈ l.
Proof.
  intros Hn. induction n as [|n IH]; [lia|].
  rewrite tile_S, elem_of_app. destruct n as [|n].
  - unfold tile. simpl. rewrite elem_of_nil. tauto.
  - rewrite IH by lia. tauto.
Qed.

Lemma elem_of_stretch n l x : 0 < n → x ∈ stretch n l ↔ x ∈ l.
Proof.
  intros Hn. induction l as [|y l IH].
  - done.
  - rewrite stretch_cons, elem_of_app, elem_of_cons, IH.
    rewrite elem_of_replicate. intuition lia.
Qed.

End tiling.

Lemma list_mul_1 {A} (xs : list A) : list_mul xs 1 = xs.
Proof. apply tile_1. Qed.

Lemma length_list_mul {A} (xs : list A) k :
  length (list_mul xs k) = (Z.to_nat k * length xs)%nat.
Proof. apply length_tile. Qed.

(** ** The columns of a Cartesian product *)

Section transpose.
Context {A : Type}.
Local Open Scope nat_scope.
Implicit Types (x : A) (p r : list A) (pools ps rows : list (list A)).

Lemma product_size_cons p ps :
  product_size (p :: ps) = length p * product_size ps.
Proof. reflexivity. Qed.

Lemma product_size_pos pools :
  Forall (λ p, p ≠ []) pools → 0 < product_size pools.
Proof.
  induction 1 as [|p pools Hp _ IH]; simpl; [lia|].
  destruct p; [done|]. simpl. lia.
Qed.

Lemma length_bind_const {B} (f : A → list B) p m :
  (∀ x, length (f x) = m) → length (p ≫= f) = length p * m.
Proof.
  intros Hf. induction p as [|x p IH]; [done|].
  rewrite bind_cons, length_app, Hf, IH. simpl. lia.
Qed.

Lemma length_itertools_product pools :
  length (itertools_product pools) = product_size pools.
Proof.
  induction pools as [|p ps IH]; [done|]. simpl.
  rewrite (length_bind_const _ _ (product_size ps)); [done|].
  intros x. by rewrite length_fmap.
Qed.

Lemma zip_star_cons r rows :
  rows ≠ [] → zip_star (r :: rows) = zip_with cons r (zip_star rows).
Proof. by destruct rows. Qed.

Lemma zip_star_fmap_cons x rows :
  rows ≠ [] →
  zip_star (cons x <$> rows) = replicate (length rows) x :: zip_star rows.
Proof.
  induction rows as [|r rows IH]; [done|]; intros _.
  destruct rows as [|r' rows]; [done|].
  rewrite fmap_cons, zip_star_cons by done.
  rewrite IH by done. by rewrite (zip_star_cons r).
Qed.

Lemma zip_with_app_cons r (cs ds : list (list A)) :
  zip_with app (zip_with cons r cs) ds = zip_with cons r (zip_with app cs ds).
Proof.
  revert cs ds. induction r as [|x r IH]; intros [|c cs] [|d ds]; simpl; try done.
  by rewrite IH.
Qed.

Lemma zip_star_app rows rows' :
  rows ≠ [] → rows' ≠ [] →
  zip_star (rows ++ rows') = zip_with app (zip_star rows) (zip_star rows').
Proof.
  intros Hrows Hne. induction rows as [|r rows IH]; [done|clear Hrows].
  destruct rows as [|r' rows].
  - simpl app. rewrite zip_star_cons by done. simpl zip_star at 2.
    by rewrite zip_with_fmap_l.
  - change ((r :: r' :: rows) ++ rows') with (r :: ((r' :: rows) ++ rows')).
    rewrite zip_star_cons by done. rewrite IH by done.
    by rewrite (zip_star_cons r), zip_with_app_cons.
Qed.

Lemma zip_star_product_cons p ps :
  p ≠ [] → itertools_product ps ≠ [] →
  zip_star (itertools_product (p :: ps)) =
  stretch (length (itertools_product ps)) p
    :: (tile (length p) <$> zip_star (itertools_product ps)).
Proof.
  intros Hp HQ. simpl itertools_product.
  set (Q := itertools_product ps) in *.
  induction p as [|x p IH]; [done|clear Hp].
  rewrite bind_cons. destruct p as [|y p].
  - simpl. rewrite !app_nil_r, zip_star_fmap_cons by done.
    f_equal. rewrite <-(list_fmap_id (zip_star Q)) at 1.
    apply list_fmap_ext; intros _ c _. by rewrite tile_1.
  - rewrite zip_star_app; [|by destruct Q| by destruct Q].
    rewrite IH by done. rewrite zip_star_fmap_cons by done. simpl zip_with.
    f_equal. rewrite zip_with_fmap_r, zip_with_diag.
    apply list_fmap_ext; intros _ c _. done.
Qed.

Lemma zip_star_product pools :
  Forall (λ p, p ≠ []) pools →
  zip_star (itertools_product pools) = columns pools.
Proof.
  induction 1 as [|p ps Hp Hps IH]; [done|].
  assert (itertools_product ps ≠ []) as HQ.
  { apply product_size_pos in Hps. rewrite <-length_itertools_product in Hps.
    intros HQ. rewrite HQ in Hps. simpl in Hps. lia. }
  rewrite zip_star_product_cons by done.
  by rewrite IH, length_itertools_product.
Qed.

Lemma length_columns pools : length (columns pools) = length pools.
Proof.
  induction pools as [|p ps IH]; [done|]. simpl. by rewrite length_fmap, IH.
Qed.

Lemma length_column pools j c :
  columns pools !! j = Some c → length c = product_size pools.
Proof.
  revert j c. induction pools as [|p ps IH]; intros [|j] c; simpl; try done.
  - intros [= <-]. by rewrite length_stretch.
  - rewrite list_lookup_fmap. destruct (columns ps !! j) as [c'|] eqn:Hc; [|done].
    intros [= <-]. by rewrite length_tile, (IH _ _ Hc).
Qed.

(** A column holds exactly the elements of its pool. *)
Lemma elem_of_column pools j c p x :
  Forall (λ p, p ≠ []) pools →
  columns pools !! j = Some c → pools !! j = Some p → x ∈ c ↔ x ∈ p.
Proof.
  intros Hne. revert j c.
  induction Hne as [|p' ps Hp' Hps IH]; intros [|j] c; simpl; try done.
  - intros [= <-] [= <-]. by apply elem_of_stretch, product_size_pos.
  - rewrite list_lookup_fmap.
    destruct (columns ps !! j) as [c'|] eqn:Hc'; [|done].
    intros [= <-] Hp. rewrite elem_of_tile by (destruct p'; simpl; [done|lia]).
    by eapply IH.
Qed.

(** Closed form of a column: the labels of the pool are stretched over
    the pools after it and tiled over the pools before it. *)
Lemma columns_lookup pools p ps :
  columns (pools ++ p :: ps) !! length pools
  = Some (tile (product_size pools) (stretch (product_size ps) p)).
Proof.
  induction pools as [|p' pools IH]; simpl.
  - by rewrite tile_1.
  - rewrite list_lookup_fmap, IH. simpl. by rewrite tile_tile.
Qed.

(** Rows of the product are pairwise distinct when no pool repeats an
    element. *)
Lemma columns_row_inj pools i i' :
  Forall NoDup pools → i < product_size pools → i' < product_size pools →
  (∀ j c, columns pools !! j = Some c → c !! i = c !! i') → i = i'.
Proof.
  intros Hnd. revert i i'.
  induction Hnd as [|p ps Hp _ IH]; intros i i' Hi Hi' Hrow; simpl in *; [lia|].
  set (q := product_size ps) in *.
  assert (0 < q) as Hq by (destruct q; lia).
  assert (i / q = i' / q) as Hdiv.
  { pose proof (Hrow 0 _ eq_refl) as H0. simpl in H0.
    rewrite !lookup_stretch in H0 by done.
    assert (i / q < length p) as Hlt
      by (apply Nat.Div0.div_lt_upper_bound; lia).
    apply lookup_lt_is_Some in Hlt as [x Hx].
    rewrite Hx in H0. by eapply NoDup_lookup. }
  assert (i mod q = i' mod q) as Hmod.
  { apply IH; [apply Nat.mod_upper_bound; lia..|].
    intros j c Hc. pose proof (length_column _ _ _ Hc) as Hlen.
    specialize (Hrow (S j) (tile (length p) c)). simpl in Hrow.
    rewrite list_lookup_fmap, Hc in Hrow. specialize (Hrow eq_refl).
    rewrite !lookup_tile in Hrow by (rewrite Hlen; lia).
    by rewrite Hlen in Hrow. }
  rewrite (Nat.div_mod_eq i q), (Nat.div_mod_eq i' q). congruence.
Qed.

End transpose.

(** ** The order on names and [sorted] *)

Lemma sorted_Permutation xs : sorted xs ≡ₚ xs.
Proof. apply merge_sort_Permutation. Qed.

Lemma sorted_StronglySorted xs : StronglySorted String.le (sorted xs).
Proof. apply StronglySorted_merge_sort; apply _. Qed.

Lemma sorted_NoDup xs : NoDup xs → NoDup (sorted xs).
Proof. by rewrite sorted_Permutation. Qed.

Lemma elem_of_sorted x xs : x ∈ sorted xs ↔ x ∈ xs.
Proof. by rewrite sorted_Permutation. Qed.

(** The result of [sorted] does not depend on the order of its input. *)
Lemma sorted_proper xs ys : xs ≡ₚ ys → sorted xs = sorted ys.
Proof.
  intros Hp. apply (Sorted_unique String.le).
  - apply StronglySorted_Sorted, sorted_StronglySorted.
  - apply StronglySorted_Sorted, sorted_StronglySorted.
  - by rewrite !sorted_Permutation.
Qed.

Lemma NoDup_keys {V} (d : gmap string V) : NoDup (keys d).
Proof. apply NoDup_fst_map_to_list. Qed.

Lemma elem_of_keys {V} (d : gmap string V) k : k ∈ keys d ↔ is_Some (d !! k).
Proof.
  unfold keys. rewrite list_elem_of_fmap. split.
  - intros [[k' v] [-> Hkv]]. apply elem_of_map_to_list in Hkv. by exists v.
  - intros [v Hv]. exists (k, v). by rewrite elem_of_map_to_list.
Qed.

Lemma lookup_total_keys {V} `{Inhabited V} (d : gmap string V) :
  (λ k, d !!! k) <$> keys d = values d.
Proof.
  unfold keys, values. rewrite <-list_fmap_compose.
  apply list_fmap_ext. intros _ [k v] Hkv%list_elem_of_lookup_2.
  apply elem_of_map_to_list in Hkv. simpl. by apply lookup_total_correct.
Qed.

(** ** Level labels *)

Lemma length_level_labels name c : length (level_labels name c) = Z.to_nat c.
Proof. unfold level_labels. by rewrite length_fmap, length_seqZ. Qed.

Lemma lookup_level_labels name c (i : nat) :
  Z.of_nat i < c →
  level_labels name c !! i = Some (name +:+ pretty (1 + Z.of_nat i)).
Proof.
  intros Hi. unfold level_labels.
  by rewrite list_lookup_fmap, lookup_seqZ_lt.
Qed.

Lemma NoDup_level_labels name c : NoDup (level_labels name c).
Proof.
  unfold level_labels. apply NoDup_fmap_2; [|apply NoDup_seqZ].
  intros i j Hij. by apply (inj (String.app name)), (inj pretty) in Hij.
Qed.

(** ** The table built by [balanced] *)

Lemma np_prod_cons x xs : np_prod (x :: xs) = x * np_prod xs.
Proof. reflexivity. Qed.

Lemma np_prod_Permutation xs ys : xs ≡ₚ ys → np_prod xs = np_prod ys.
Proof. induction 1; simpl; lia. Qed.

Lemma np_prod_pos xs : Forall (λ c, 0 < c) xs → 0 < np_prod xs.
Proof. induction 1; simpl; lia. Qed.

(** The loop that fills [data], one column per name. *)
Lemma foldl_insert_zip_notin {V W} (f : V → W) (ns : list string)
    (vs : list V) (d0 : gmap string W) name :
  name ∉ ns →
  foldl (λ data nv, <[nv.1 := f nv.2]> data) d0 (zip ns vs) !! name
  = d0 !! name.
Proof.
  revert vs d0. induction ns as [|n ns IH]; intros [|v vs] d0 Hn; try done.
  simpl. rewrite IH by set_solver. apply lookup_insert_ne. set_solver.
Qed.

Lemma foldl_insert_zip_lookup {V W} (f : V → W) (ns : list string)
    (vs : list V) (d0 : gmap string W) j name v :
  NoDup ns → ns !! j = Some name → vs !! j = Some v →
  foldl (λ data nv, <[nv.1 := f nv.2]> data) d0 (zip ns vs) !! name
  = Some (f v).
Proof.
  intros Hnd. revert vs d0 j.
  induction Hnd as [|n ns Hn _ IH]; intros [|v0 vs] d0 [|j]; try done; simpl.
  - intros [= ->] [= ->].
    rewrite foldl_insert_zip_notin by done. apply lookup_insert_eq.
  - apply IH.
Qed.

Lemma product_size_level_labels (factors : gmap string Z) ns :
  Forall (λ name, 0 < factors !!! name) ns →
  product_size ((λ name, level_labels name (factors !!! name)) <$> ns)
  = Z.to_nat (np_prod ((λ name, factors !!! name) <$> ns)).
Proof.
  induction 1 as [|name ns Hpos Hns IH]; [done|].
  rewrite !fmap_cons, product_size_cons, np_prod_cons.
  rewrite length_level_labels, IH, Z2Nat.inj_mul; [done|lia|].
  by apply Z.lt_le_incl, np_prod_pos, Forall_fmap.
Qed.

Section balanced_table.
Context (kwargs : gmap string Z).

Local Abbreviation reps := (default 1 (kwargs !! "repeat")).
Local Abbreviation factors := (delete "repeat" kwargs).
Local Abbreviation names := (sorted (keys factors)).
Local Abbreviation levels :=
  ((λ name, level_labels name (factors !!! name)) <$> names).

Hypothesis positive : map_Forall (λ _ c, 0 < c) factors.

Lemma names_NoDup : NoDup names.
Proof. apply sorted_NoDup, NoDup_keys. Qed.

Lemma elem_of_names name : name ∈ names ↔ is_Some (factors !! name).
Proof. by rewrite elem_of_sorted, elem_of_keys. Qed.

Lemma names_count_pos name : name ∈ names → 0 < factors !!! name.
Proof.
  intros [c Hc]%elem_of_names.
  rewrite (lookup_total_correct _ _ _ Hc). by eapply positive.
Qed.

Lemma levels_nonempty : Forall (λ p, p ≠ []) levels.
Proof.
  apply Forall_fmap, Forall_forall. intros name Hn. simpl.
  apply names_count_pos in Hn. intros Hnil%(f_equal length).
  rewrite length_level_labels in Hnil. simpl in Hnil. lia.
Qed.

Lemma levels_NoDup : Forall NoDup levels.
Proof.
  apply Forall_fmap, Forall_forall. intros name _.
  apply NoDup_level_labels.
Qed.

Lemma product_size_levels :
  product_size levels = Z.to_nat (np_prod (values factors)).
Proof.
  rewrite <-lookup_total_keys.
  rewrite (np_prod_Permutation _ ((λ k, factors !!! k) <$> names))
    by (by rewrite sorted_Permutation).
  apply product_size_level_labels, Forall_forall, names_count_pos.
Qed.

Lemma balanced_columns :
  balanced kwargs =
  foldl (λ data nv, <[nv.1 := list_mul nv.2 reps]> data) ∅
    (zip names (columns levels)).
Proof.
  unfold balanced. cbv zeta. by rewrite zip_star_product by apply levels_nonempty.
Qed.

Lemma balanced_lookup j name c :
  names !! j = Some name → columns levels !! j = Some c →
  balanced kwargs !! name = Some (list_mul c reps).
Proof.
  intros Hn Hc. rewrite balanced_columns.
  by apply (foldl_insert_zip_lookup (λ c, list_mul c reps)) with j;
    [apply names_NoDup|..].
Qed.

Lemma balanced_lookup_None name :
  factors !! name = None → balanced kwargs !! name = None.
Proof.
  intros Hn. rewrite balanced_columns.
  rewrite (foldl_insert_zip_notin (λ c, list_mul c reps)); [done|].
  rewrite elem_of_names, Hn. by intros [??].
Qed.

Lemma balanced_lookup_inv name col :
  balanced kwargs !! name = Some col →
  ∃ j c, names !! j = Some name ∧ columns levels !! j = Some c
         ∧ col = list_mul c reps.
Proof.
  intros Hcol. destruct (factors !! name) as [k|] eqn:Hk.
  - assert (name ∈ names) as [j Hj]%list_elem_of_lookup_1
      by (rewrite elem_of_names, Hk; eauto).
    destruct (lookup_lt_is_Some_2 (columns levels) j) as [c Hc].
    { rewrite length_columns, length_fmap. by eapply lookup_lt_Some. }
    exists j, c. rewrite (balanced_lookup _ _ _ Hj Hc) in Hcol. naive_solver.
  - by rewrite balanced_lookup_None in Hcol.
Qed.

Lemma balanced_lookup_length name col :
  balanced kwargs !! name = Some col →
  length col
  = (Z.to_nat reps * Z.to_nat (np_prod (values factors)))%nat.
Proof.
  intros (j & c & _ & Hc & ->)%balanced_lookup_inv.
  by rewrite length_list_mul, (length_column _ _ _ Hc), product_size_levels.
Qed.

Lemma balanced_lookup_elem_of name col l :
  0 < reps → balanced kwargs !! name = Some col →
  l ∈ col ↔ l ∈ level_labels name (factors !!! name).
Proof.
  intros Hreps (j & c & Hj & Hc & ->)%balanced_lookup_inv.
  rewrite list_mul_tile, elem_of_tile by lia.
  apply (elem_of_column _ _ _ _ _ levels_nonempty Hc).
  by rewrite list_lookup_fmap, Hj.
Qed.

Lemma balanced_dom : dom (balanced kwargs) = dom factors.
Proof.
  apply set_eq. intros name. rewrite !elem_of_dom. split.
  - intros [col (j & c & Hj & _)%balanced_lookup_inv].
    apply elem_of_names. by eapply list_elem_of_lookup_2.
  - intros [j Hj]%elem_of_names%list_elem_of_lookup_1.
    destruct (lookup_lt_is_Some_2 (columns levels) j) as [c Hc].
    { rewrite length_columns, length_fmap. by eapply lookup_lt_Some. }
    rewrite (balanced_lookup _ _ _ Hj Hc). eauto.
Qed.

End balanced_table.

(** Mapping over the filled table is filling with the mapped columns. *)
Lemma fmap_foldl_insert_zip {V W X} (f : V → W) (g : W → X) (h : V → X)
    (ns : list string) (vs : list V) (d0 : gmap string W) :
  (∀ v, g (f v) = h v) →
  g <$> foldl (λ data nv, <[nv.1 := f nv.2]> data) d0 (zip ns vs)
  = foldl (λ data nv, <[nv.1 := h nv.2]> data) (g <$> d0) (zip ns vs).
Proof.
  intros Hh. revert vs d0.
  induction ns as [|n ns IH]; intros [|v vs] d0; try done.
  simpl. by rewrite IH, fmap_insert, Hh.
Qed.

(** C1: the factor names are taken in sorted order, the labels of a factor
    are its name followed by 1..level_count, and the product is enumerated
    with the last factor varying fastest: the column of a factor is its
    label list, each label held for the product of the level counts of the
    factors after it, the whole repeated for each combination of the
    factors before it.  In particular [balanced(a=2, b=3)] is the table of
    the docstring. *)
Theorem balanced_enumeration :
  (∀ kwargs : gmap string Z,
     let factors := delete "repeat" kwargs in
     let names := sorted (keys factors) in
     map_Forall (λ _ c, 0 < c) factors →
     StronglySorted String.le names ∧ names ≡ₚ keys factors ∧
     (∀ name c (i : nat), factors !! name = Some c → Z.of_nat i < c →
        level_labels name c !! i = Some (name +:+ pretty (1 + Z.of_nat i))) ∧
     ∀ before name after, names = before ++ name :: after →
       balanced kwargs !! name =
       Some (list_mul
               (tile (count_product factors before)
                  (stretch (count_product factors after)
                     (level_labels name (factors !!! name))))
               (default 1 (kwargs !! "repeat"))))
  ∧ balanced {[ "a" := 2; "b" := 3 ]} =
    {[ "a" := ["a1"; "a1"; "a1"; "a2"; "a2"; "a2"];
       "b" := ["b1"; "b2"; "b3"; "b1"; "b2"; "b3"] ]}.
Proof.
  split; [|by vm_compute].
  intros kwargs factors names Hpos.
  split; [apply sorted_StronglySorted|].
  split; [apply sorted_Permutation|].
  split; [intros; by apply lookup_level_labels|].
  intros before name after Hnames.
  assert (Forall (λ n, 0 < factors !!! n) names) as Hall.
  { apply Forall_forall. intros n. by apply names_count_pos. }
  rewrite Hnames in Hall.
  apply Forall_app in Hall as [Hbefore [_ Hafter]%Forall_cons].
  apply (balanced_lookup kwargs Hpos (length before)).
  - fold factors names. rewrite Hnames. by apply list_lookup_middle.
  - fold factors names. rewrite Hnames, fmap_app, fmap_cons.
    rewrite <-(length_fmap (λ n, level_labels n (factors !!! n)) before).
    rewrite columns_lookup. unfold count_product.
    by rewrite !product_size_level_labels.
Qed.

Lemma balanced_enumeration_witness :
  map_Forall (λ _ c, 0 < c)
    (delete "repeat" ({[ "a" := 2; "b" := 3 ]} : gmap string Z)) ∧
  balanced {[ "a" := 2; "b" := 3 ]} !! "b"
  = Some ["b1"; "b2"; "b3"; "b1"; "b2"; "b3"].
Proof.
  assert (map_Forall (λ _ c, 0 < c)
            (delete "repeat" ({[ "a" := 2; "b" := 3 ]} : gmap string Z)))
    as Hpos by (apply (bool_decide_unpack _); vm_compute; exact I).
  split; [exact Hpos|].
  destruct (proj1 balanced_enumeration {[ "a" := 2; "b" := 3 ]} Hpos)
    as (_ & _ & _ & Hcol).
  apply (Hcol ["a"] "b" []). vm_compute. reflexivity.
Defined.

(** C2: for positive level counts and a positive repeat, the table has
    one column per factor and every column has length
    repeat * product of the level counts. *)
Theorem balanced_column_lengths (kwargs : gmap string Z) :
  let repeat := default 1 (kwargs !! "repeat") in
  let factors := delete "repeat" kwargs in
  map_Forall (λ _ c, 0 < c) factors →
  0 < repeat →
  dom (balanced kwargs) = dom factors ∧
  ∀ name col, balanced kwargs !! name = Some col →
    Z.of_nat (length col) = repeat * np_prod (values factors).
Proof.
  intros repeat factors Hpos Hrep. split; [by apply balanced_dom|].
  intros name col (j & c & _ & Hc & ->)%balanced_lookup_inv; [|done].
  rewrite length_list_mul, (length_column _ _ _ Hc).
  rewrite product_size_levels by done.
  fold repeat factors.
  assert (0 < np_prod (values factors)).
  { apply np_prod_pos, Forall_forall. intros c' Hc'.
    apply list_elem_of_fmap in Hc' as [[n c''] [-> Hn%elem_of_map_to_list]].
    by eapply Hpos. }
  lia.
Qed.

Lemma balanced_column_lengths_witness :
  map_Forall (λ _ c, 0 < c)
    (delete "repeat" ({[ "a" := 2; "b" := 3; "repeat" := 2 ]} : gmap string Z)) ∧
  0 < default 1 (({[ "a" := 2; "b" := 3; "repeat" := 2 ]} : gmap string Z)
                   !! "repeat") ∧
  ∀ name col,
    balanced {[ "a" := 2; "b" := 3; "repeat" := 2 ]} !! name = Some col →
    Z.of_nat (length col) = 12.
Proof.
  assert (map_Forall (λ _ c, 0 < c)
            (delete "repeat"
               ({[ "a" := 2; "b" := 3; "repeat" := 2 ]} : gmap string Z)))
    as Hpos by (apply (bool_decide_unpack _); vm_compute; exact I).
  assert (0 < default 1 (({[ "a" := 2; "b" := 3; "repeat" := 2 ]}
                            : gmap string Z) !! "repeat"))
    as Hrep by (vm_compute; reflexivity).
  split; [exact Hpos|]. split; [exact Hrep|].
  exact (proj2 (balanced_column_lengths _ Hpos Hrep)).
Defined.

(** C3: within one replicate the rows are pairwise distinct, every row
    names a level of every factor, and the rows repeat with period the
    product of the level counts (the block is tiled), as in
    [balanced(a=2, b=2, repeat=2)]. *)
Theorem balanced_rows :
  (∀ kwargs : gmap string Z,
     let repeat := default 1 (kwargs !! "repeat") in
     let factors := delete "repeat" kwargs in
     let balanced_size := Z.to_nat (np_prod (values factors)) in
     let data := balanced kwargs in
     map_Forall (λ _ c, 0 < c) factors →
     0 < repeat →
     (∀ i, (i < Z.to_nat repeat * balanced_size)%nat →
        dom (row data i) = dom factors) ∧
     (∀ i i', (i < balanced_size)%nat → (i' < balanced_size)%nat →
        row data i = row data i' → i = i') ∧
     (∀ i, (i + balanced_size < Z.to_nat repeat * balanced_size)%nat →
        row data (i + balanced_size) = row data i))
  ∧ balanced {[ "a" := 2; "b" := 2; "repeat" := 2 ]} =
    {[ "a" := ["a1"; "a1"; "a2"; "a2"; "a1"; "a1"; "a2"; "a2"];
       "b" := ["b1"; "b2"; "b1"; "b2"; "b1"; "b2"; "b1"; "b2"] ]}.
Proof.
  split; [|by vm_compute].
  intros kwargs. cbv zeta. intros Hpos Hrep.
  pose proof (product_size_levels kwargs Hpos) as Hsize.
  set (balanced_size := Z.to_nat (np_prod (values (delete "repeat" kwargs)))) in *.
  split; [|split].
  - intros i Hi. apply set_eq. intros name.
    rewrite <-(balanced_dom kwargs Hpos), !elem_of_dom.
    unfold row. rewrite lookup_omap. split.
    + destruct (balanced kwargs !! name); [eauto|by intros [??]].
    + intros [col Hcol]. rewrite Hcol. simpl. apply lookup_lt_is_Some.
      apply balanced_lookup_inv in Hcol as (j & c & _ & Hc & ->); [|done].
      by rewrite length_list_mul, (length_column _ _ _ Hc), Hsize.
  - intros i i' Hi Hi' Hrow.
    apply (columns_row_inj _ _ _ (levels_NoDup kwargs)); rewrite ?Hsize; try done.
    intros j c Hc.
    destruct (lookup_lt_is_Some_2 (sorted (keys (delete "repeat" kwargs))) j)
      as [name Hname].
    { apply lookup_lt_Some in Hc.
      by rewrite length_columns, length_fmap in Hc. }
    pose proof (balanced_lookup kwargs Hpos _ _ _ Hname Hc) as Hcol.
    apply (f_equal (.!! name)) in Hrow. unfold row in Hrow.
    rewrite !lookup_omap, Hcol in Hrow.
    simpl in Hrow. pose proof (length_column _ _ _ Hc) as Hlen.
    rewrite !list_mul_tile, !lookup_tile_prefix in Hrow by lia. done.
  - intros i Hi. apply map_eq. intros name. unfold row.
    rewrite !lookup_omap.
    destruct (balanced kwargs !! name) as [col|] eqn:Hcol; [|done].
    apply balanced_lookup_inv in Hcol as (j & c & _ & Hc & ->); [|done].
    pose proof (length_column _ _ _ Hc) as Hlen. rewrite Hsize in Hlen.
    simpl. rewrite !list_mul_tile, !lookup_tile by lia.
    rewrite Hlen. replace (i + balanced_size)%nat
      with (i + 1 * balanced_size)%nat by lia.
    by rewrite Nat.Div0.mod_add.
Qed.

Lemma balanced_rows_witness :
  map_Forall (λ _ c, 0 < c)
    (delete "repeat" ({[ "a" := 2; "b" := 2; "repeat" := 2 ]} : gmap string Z)) ∧
  0 < default 1 (({[ "a" := 2; "b" := 2; "repeat" := 2 ]} : gmap string Z)
                   !! "repeat") ∧
  row (balanced {[ "a" := 2; "b" := 2; "repeat" := 2 ]}) (1 + 4)
  = row (balanced {[ "a" := 2; "b" := 2; "repeat" := 2 ]}) 1.
Proof.
  assert (map_Forall (λ _ c, 0 < c)
            (delete "repeat"
               ({[ "a" := 2; "b" := 2; "repeat" := 2 ]} : gmap string Z)))
    as Hpos by (apply (bool_decide_unpack _); vm_compute; exact I).
  assert (0 < default 1 (({[ "a" := 2; "b" := 2; "repeat" := 2 ]}
                            : gmap string Z) !! "repeat"))
    as Hrep by (vm_compute; reflexivity).
  split; [exact Hpos|]. split; [exact Hrep|].
  destruct (proj1 balanced_rows _ Hpos Hrep) as (_ & _ & Hperiod).
  apply (Hperiod 1%nat). vm_compute. lia.
Defined.



Example balanced_repeat_only :
  balanced {[ "repeat" := 4 ]} = ∅.
Proof. by vm_compute. Qed.

(** ** Classification of the names *)

(** The two alphabets are the ranges 'a'..'n' and 'p'..'z'. *)
Lemma char_in_a_n c :
  char_in c "abcdefghijklmn" = true
  ↔ (97 ≤ Ascii.N_of_ascii c ≤ 110)%N.
Proof.
  destruct c as [[] [] [] [] [] [] [] []]; vm_compute; intuition congruence.
Qed.

Lemma char_in_p_z c :
  char_in c "pqrstuvwxyz" = true
  ↔ (112 ≤ Ascii.N_of_ascii c ≤ 122)%N.
Proof.
  destruct c as [[] [] [] [] [] [] [] []]; vm_compute; intuition congruence.
Qed.

Lemma categorical_not_numerical name :
  is_categorical name → ¬ is_numerical name.
Proof.
  destruct name as [|c s]; [done|].
  unfold is_categorical, is_numerical, first_char_in.
  rewrite !Is_true_true, char_in_a_n, char_in_p_z. lia.
Qed.

Lemma classify_name_categorical nlevels name numerical categorical :
  is_categorical name →
  classify_name nlevels name (numerical, categorical)
  = inr (numerical, <[name := nlevels]> categorical).
Proof.
  destruct name as [|c s]; [done|].
  unfold is_categorical, first_char_in, classify_name.
  by intros ->%Is_true_true.
Qed.

Lemma classify_name_numerical nlevels name numerical categorical :
  is_numerical name →
  classify_name nlevels name (numerical, categorical)
  = inr ({[name]} ∪ numerical, categorical).
Proof.
  intros Hnum.
  assert (¬ is_categorical name) as Hcat
    by (intros Hc; by apply (categorical_not_numerical name)).
  destruct name as [|c s]; [done|].
  unfold is_categorical, is_numerical, first_char_in, classify_name in *.
  apply Is_true_true in Hnum as ->.
  by apply Is_true_false in Hcat as ->.
Qed.

Lemma classify_name_unrecognized nlevels name st :
  ¬ recognized name → classify_name nlevels name st = inl (name_error name).
Proof.
  unfold recognized, is_categorical, is_numerical. intros Hbad.
  destruct st as [numerical categorical], name as [|c s]; [done|].
  unfold first_char_in, classify_name, name_error in *.
  destruct (char_in c "abcdefghijklmn"); [naive_solver|].
  destruct (char_in c "pqrstuvwxyz"); naive_solver.
Qed.

Lemma classify_cons nlevels name names st :
  classify nlevels (name :: names) st
  = classify_name nlevels name st ≫= classify nlevels names.
Proof. reflexivity. Qed.

Lemma classify_fail nlevels before bad after st :
  Forall recognized before → ¬ recognized bad →
  classify nlevels (before ++ bad :: after) st = inl (name_error bad).
Proof.
  intros Hbefore Hbad. revert st.
  induction Hbefore as [|name before Hname _ IH]; intros [num cat].
  - by rewrite app_nil_l, classify_cons, classify_name_unrecognized.
  - rewrite <-app_comm_cons, classify_cons. destruct Hname as [Hc|Hn].
    + rewrite classify_name_categorical by done. apply IH.
    + rewrite classify_name_numerical by done. apply IH.
Qed.

Lemma first_unrecognized names :
  ¬ Forall recognized names →
  ∃ before bad after,
    names = before ++ bad :: after ∧ Forall recognized before ∧ ¬ recognized bad.
Proof.
  induction names as [|name names IH]; intros Hnames.
  { by destruct Hnames. }
  destruct (decide (recognized name)) as [Hname|Hname].
  - destruct IH as (before & bad & after & -> & Hbefore & Hbad).
    { intros Hall. apply Hnames. by constructor. }
    exists (name :: before), bad, after. split; [done|]. split; [|done].
    by constructor.
  - by exists [], name, names.
Qed.

Lemma classify_ok nlevels names numerical categorical :
  Forall recognized names →
  classify nlevels names (numerical, categorical)
  = inr (numerical_names names ∪ numerical,
         gset_to_gmap nlevels (categorical_names names) ∪ categorical).
Proof.
  intros Hnames. revert numerical categorical.
  unfold numerical_names, categorical_names.
  induction Hnames as [|name names Hname _ IH]; intros num cat.
  { rewrite !filter_nil, !list_to_set_nil, gset_to_gmap_empty. simpl.
    by rewrite (left_id_L ∅ (∪)), (left_id_L ∅ (∪)). }
  rewrite classify_cons, !filter_cons. destruct Hname as [Hc|Hn].
  - pose proof (categorical_not_numerical _ Hc).
    rewrite classify_name_categorical by done. simpl. rewrite IH.
    destruct (decide (is_numerical name)); [done|].
    destruct (decide (is_categorical name)); [|done].
    rewrite list_to_set_cons, gset_to_gmap_union_singleton.
    do 2 f_equal. apply map_eq. intros k.
    rewrite !lookup_union, !lookup_insert, ?lookup_union.
    case_decide; [|done].
    destruct (gset_to_gmap _ _ !! k) as [v|] eqn:Hk;
      [apply lookup_gset_to_gmap_Some in Hk as [_ ->]|];
      by destruct (cat !! k).
  - assert (¬ is_categorical name)
      by (intros Hc; by apply (categorical_not_numerical name)).
    rewrite classify_name_numerical by done. simpl. rewrite IH.
    destruct (decide (is_numerical name)); [|done].
    destruct (decide (is_categorical name)); [done|].
    rewrite list_to_set_cons. do 2 f_equal.
    by rewrite (assoc_L (∪)), (comm_L (∪) _ {[name]}).
Qed.

Lemma classify_recognized nlevels names st st' :
  classify nlevels names st = inr st' → Forall recognized names.
Proof.
  revert st. induction names as [|name names IH]; intros st; [done|].
  rewrite classify_cons.
  destruct (decide (recognized name)) as [Hname|Hname].
  - destruct (classify_name nlevels name st) as [e|st'']; [done|]. simpl.
    intros Hst%IH. by constructor.
  - by rewrite classify_name_unrecognized.
Qed.

(** ** The sample stream of the generator *)

Section generator.
Context `{RandomState}.

Lemma advance_add a b r : advance (a + b) r = advance b (advance a r).
Proof. unfold advance. by rewrite Nat.add_comm, Nat.iter_add. Qed.

Lemma nth_sample_advance a r k :
  nth_sample (advance a r) k = nth_sample r (a + k).
Proof. unfold nth_sample. by rewrite advance_add. Qed.

Lemma length_block r n i : length (block r n i) = n.
Proof. unfold block. by rewrite length_fmap, length_seq. Qed.

Lemma block_advance r n i : block (advance n r) n i = block r n (S i).
Proof.
  unfold block. change (S i * n)%nat with (n + i * n)%nat.
  rewrite <-fmap_add_seq, <-list_fmap_compose.
  apply list_fmap_ext. intros _ k _. apply nth_sample_advance.
Qed.

Lemma draws_S n r :
  draws (S n) r
  = ((gauss r).1 :: (draws n (gauss r).2).1, (draws n (gauss r).2).2).
Proof.
  simpl. destruct (gauss r) as [x r']. cbn [fst snd].
  by destruct (draws n r').
Qed.

Lemma draws_spec n r : draws n r = (block r n 0, advance n r).
Proof.
  unfold block. revert r. induction n as [|n IH]; intros r; [done|].
  rewrite draws_S, IH. change (gauss r).2 with (advance 1 r).
  cbn [fst snd]. rewrite <-advance_add. f_equal.
  change (0 * S n)%nat with 0%nat. change (0 * n)%nat with 0%nat.
  cbn [seq fmap list_fmap]. f_equal.
  rewrite <-fmap_S_seq, <-list_fmap_compose.
  apply list_fmap_ext. intros _ k _. apply nth_sample_advance.
Qed.


(** The loop over the numeric names succeeds unless it is asked for a
    negative number of rows, and gives the i-th name the i-th block of
    the stream. *)
Lemma fill_numerical_spec num_rows ns r data :
  ns = [] ∨ 0 ≤ num_rows → NoDup ns →
  ∃ data', fill_numerical num_rows ns r data = inr data' ∧
    (∀ i name, ns !! i = Some name →
       data' !! name = Some (Samples (block r (Z.to_nat num_rows) i))) ∧
    (∀ name, name ∉ ns → data' !! name = data !! name).
Proof.
  intros Hrows Hnd. revert r data.
  induction Hnd as [|name ns Hname _ IH]; intros r data.
  { exists data. by split. }
  destruct Hrows as [|Hrows]; [done|].
  specialize (IH (or_intror Hrows)).
  simpl. unfold normal. rewrite decide_False by lia. simpl.
  rewrite draws_spec.
  destruct (IH (advance (Z.to_nat num_rows) r)
              (<[name := Samples (block r (Z.to_nat num_rows) 0)]> data))
    as (data' & -> & Hin & Hout).
  exists data'. split; [done|]. split.
  - intros [|i] name'; simpl.
    + intros [= <-]. by rewrite Hout, lookup_insert_eq.
    + intros Hi. by rewrite (Hin _ _ Hi), block_advance.
  - intros name' [Hne Hnotin]%not_elem_of_cons.
    by rewrite Hout, lookup_insert_ne.
Qed.

Lemma fill_numerical_inr num_rows ns r data data' :
  fill_numerical num_rows ns r data = inr data' → ns = [] ∨ 0 ≤ num_rows.
Proof.
  destruct ns as [|name ns]; [by left|]. simpl. unfold normal.
  case_decide; [done|]. intros _. right. lia.
Qed.

End generator.

(** ** The row count of [demo_data] *)

Lemma np_prod_const c xs :
  Forall (λ x, x = c) xs → np_prod xs = c ^ Z.of_nat (length xs).
Proof.
  induction 1 as [|x xs -> _ IH]; [done|].
  rewrite np_prod_cons, IH, length_cons, Nat2Z.inj_succ, Z.pow_succ_r; lia.
Qed.

Lemma np_prod_values_gset_to_gmap c (X : gset string) :
  np_prod (values (gset_to_gmap c X)) = c ^ Z.of_nat (size X).
Proof.
  rewrite (np_prod_const c).
  - unfold values. rewrite length_fmap, length_map_to_list.
    by rewrite <-(size_dom (D:=gset string)), dom_gset_to_gmap.
  - apply Forall_fmap, Forall_forall. intros [k v] Hkv%elem_of_map_to_list.
    by apply lookup_gset_to_gmap_Some in Hkv as [_ ->].
Qed.

Lemma balanced_design_size_pos nlevels names :
  0 < nlevels → 0 < balanced_design_size nlevels names.
Proof. intros. apply Z.pow_pos_nonneg; lia. Qed.

(** [num_rows] is the least multiple of the design size that reaches
    [min_rows]. *)
Lemma num_rows_least nlevels min_rows names :
  0 < nlevels →
  min_rows ≤ num_rows nlevels min_rows names ∧
  ∀ k, min_rows ≤ k * balanced_design_size nlevels names →
       num_rows nlevels min_rows names
       ≤ k * balanced_design_size nlevels names.
Proof.
  intros Hpos%(balanced_design_size_pos _ names).
  unfold num_rows, replicates.
  set (b := balanced_design_size nlevels names) in *.
  pose proof (Z.div_mod (- min_rows) b) as Hdiv.
  pose proof (Z.mod_pos_bound (- min_rows) b Hpos) as Hmod.
  split; [nia|]. intros k Hk.
  destruct (decide (- (- min_rows / b) ≤ k)) as [Hle|Hgt]; [nia|].
  assert (k + 1 ≤ - (- min_rows / b)) as Hk1 by lia. nia.
Qed.

Lemma replicates_pos nlevels min_rows names :
  0 < nlevels → 0 < min_rows → 0 < replicates nlevels min_rows names.
Proof.
  intros Hpos%(balanced_design_size_pos _ names) Hmin. unfold replicates.
  set (b := balanced_design_size nlevels names) in *.
  pose proof (Z.div_mod (- min_rows) b) as Hdiv.
  pose proof (Z.mod_pos_bound (- min_rows) b Hpos) as Hmod. nia.
Qed.

Lemma replicates_nonneg nlevels min_rows names :
  0 < nlevels → 0 ≤ min_rows → 0 ≤ replicates nlevels min_rows names.
Proof.
  intros Hpos%(balanced_design_size_pos _ names) Hmin. unfold replicates.
  set (b := balanced_design_size nlevels names) in *.
  pose proof (Z.div_mod (- min_rows) b) as Hdiv.
  pose proof (Z.mod_pos_bound (- min_rows) b Hpos) as Hmod. nia.
Qed.

(** ** The phases of [demo_data] *)

Lemma repeat_not_categorical names : "repeat" ∉ categorical_names names.
Proof.
  unfold categorical_names. rewrite elem_of_list_to_set, list_elem_of_filter.
  by intros [? _].
Qed.

Lemma elem_of_categorical_names name names :
  name ∈ categorical_names names ↔ is_categorical name ∧ name ∈ names.
Proof.
  unfold categorical_names. by rewrite elem_of_list_to_set, list_elem_of_filter.
Qed.

Lemma elem_of_numerical_names name names :
  name ∈ numerical_names names ↔ is_numerical name ∧ name ∈ names.
Proof.
  unfold numerical_names. by rewrite elem_of_list_to_set, list_elem_of_filter.
Qed.

Section categorical_table.
Context (nlevels min_rows : Z) (names : list string).
Local Abbreviation cats := (gset_to_gmap nlevels (categorical_names names)).
Local Abbreviation table_kwargs :=
  (<["repeat" := replicates nlevels min_rows names]> cats).

Lemma table_kwargs_repeat :
  default 1 (table_kwargs !! "repeat") = replicates nlevels min_rows names.
Proof. by rewrite lookup_insert_eq. Qed.

Lemma table_kwargs_factors : delete "repeat" table_kwargs = cats.
Proof.
  rewrite delete_insert_eq. apply delete_id, lookup_gset_to_gmap_None.
  apply repeat_not_categorical.
Qed.

Lemma table_kwargs_positive :
  0 < nlevels → map_Forall (λ _ c, 0 < c) (delete "repeat" table_kwargs).
Proof.
  intros Hpos. rewrite table_kwargs_factors.
  by intros name c [_ ->]%lookup_gset_to_gmap_Some.
Qed.

Lemma categorical_table_dom :
  0 < nlevels →
  dom (categorical_table nlevels min_rows names) = categorical_names names.
Proof.
  intros Hpos. unfold categorical_table.
  rewrite balanced_dom by by apply table_kwargs_positive.
  by rewrite table_kwargs_factors, dom_gset_to_gmap.
Qed.

Lemma categorical_table_length name col :
  0 < nlevels → 0 ≤ min_rows →
  categorical_table nlevels min_rows names !! name = Some col →
  Z.of_nat (length col) = num_rows nlevels min_rows names.
Proof.
  intros Hpos Hmin Hcol.
  apply balanced_lookup_length in Hcol; [|by apply table_kwargs_positive].
  rewrite Hcol, table_kwargs_repeat, table_kwargs_factors.
  rewrite np_prod_values_gset_to_gmap. fold (balanced_design_size nlevels names).
  pose proof (replicates_nonneg nlevels min_rows names Hpos Hmin).
  pose proof (balanced_design_size_pos nlevels names Hpos).
  unfold num_rows. lia.
Qed.

Lemma categorical_table_labels name labels l :
  0 < nlevels → 0 < min_rows →
  categorical_table nlevels min_rows names !! name = Some labels →
  l ∈ labels ↔ l ∈ level_labels name nlevels.
Proof.
  intros Hpos Hmin Hlabels.
  assert (name ∈ categorical_names names) as Hname.
  { rewrite <-categorical_table_dom, elem_of_dom by done. by eexists. }
  unfold categorical_table in Hlabels.
  rewrite (balanced_lookup_elem_of _ (table_kwargs_positive Hpos) _ _ _
             ltac:(rewrite table_kwargs_repeat; by apply replicates_pos)
             Hlabels).
  rewrite table_kwargs_factors.
  by rewrite (lookup_total_correct cats name nlevels)
    by by apply lookup_gset_to_gmap_Some.
Qed.

End categorical_table.

Section demo_data_phases.
Context `{RandomState}.
Implicit Types (names : list string) (kwargs : gmap string Z).
Implicit Types (data : gmap string column).

Lemma demo_data_unexpected names kwargs :
  unexpected kwargs ≠ ∅ →
  demo_data names kwargs = inl (TypeError (unexpected kwargs)).
Proof. intros Hne. unfold demo_data. cbv zeta. by rewrite decide_True. Qed.

Lemma demo_data_expected names kwargs :
  unexpected kwargs = ∅ →
  demo_data names kwargs =
  '(numerical, categorical) ←
     classify (nlevels_of kwargs) names (∅, ∅);
  let balanced_design_size := np_prod (values categorical) in
  repeat ← ceil_div (min_rows_of kwargs) balanced_design_size;
  fill_numerical (repeat * balanced_design_size)
    (sorted (elements numerical)) (seed 0)
    (Levels <$> balanced (<["repeat" := repeat]> categorical)).
Proof.
  intros Hexp. unfold demo_data. cbv zeta.
  rewrite decide_False by (by intros []).
  by rewrite lookup_delete_ne.
Qed.

Lemma demo_data_unclassified names kwargs e :
  unexpected kwargs = ∅ →
  classify (nlevels_of kwargs) names (∅, ∅) = inl e →
  demo_data names kwargs = inl e.
Proof. intros Hexp He. by rewrite demo_data_expected, He. Qed.

Lemma demo_data_classified names kwargs :
  unexpected kwargs = ∅ → Forall recognized names →
  demo_data names kwargs =
  let nlevels := nlevels_of kwargs in
  let min_rows := min_rows_of kwargs in
  if decide (balanced_design_size nlevels names = 0)
  then inl ZeroDivisionError
  else fill_numerical (num_rows nlevels min_rows names)
         (sorted (elements (numerical_names names))) (seed 0)
         (Levels <$> categorical_table nlevels min_rows names).
Proof.
  intros Hexp Hnames. rewrite demo_data_expected, classify_ok by done.
  rewrite !(right_id_L ∅ (∪)). cbn [mbind exn_bind]. cbv zeta.
  rewrite np_prod_values_gset_to_gmap. unfold ceil_div.
  fold (balanced_design_size (nlevels_of kwargs) names).
  by case_decide.
Qed.

(** What a successful call went through, and the table it returns. *)
Lemma demo_data_inr names kwargs data :
  demo_data names kwargs = inr data →
  let nlevels := nlevels_of kwargs in
  let min_rows := min_rows_of kwargs in
  let n := Z.to_nat (num_rows nlevels min_rows names) in
  unexpected kwargs = ∅ ∧ Forall recognized names ∧
  balanced_design_size nlevels names ≠ 0 ∧
  (numerical_names names = ∅ ∨ 0 ≤ num_rows nlevels min_rows names) ∧
  (∀ i name, sorted (elements (numerical_names names)) !! i = Some name →
     data !! name = Some (Samples (block (seed 0) n i))) ∧
  (∀ name, name ∉ numerical_names names →
     data !! name = Levels <$> categorical_table nlevels min_rows names !! name).
Proof.
  intros Hdata. cbv zeta.
  destruct (decide (unexpected kwargs = ∅)) as [Hexp|Hexp];
    [|by rewrite demo_data_unexpected in Hdata].
  assert (Forall recognized names) as Hnames.
  { rewrite demo_data_expected in Hdata by done.
    destruct (classify _ _ _) as [e|st] eqn:Hst; [done|].
    by eapply classify_recognized. }
  rewrite demo_data_classified in Hdata by done. cbv zeta in Hdata.
  case_decide as Hsize; [done|].
  assert (sorted (elements (numerical_names names)) = []
          ∨ 0 ≤ num_rows (nlevels_of kwargs) (min_rows_of kwargs) names)
    as Hrows by (by eapply fill_numerical_inr).
  edestruct fill_numerical_spec as (data' & Hdata' & Hin & Hout);
    [exact Hrows|apply sorted_NoDup, NoDup_elements|].
  rewrite Hdata' in Hdata. injection Hdata as ->.
  repeat split; try done.
  - destruct Hrows as [Hnil|]; [left|by right].
    apply leibniz_equiv, elements_empty_inv, Permutation_nil_r.
    by rewrite <-(sorted_Permutation (elements _)), Hnil.
  - intros name Hname. rewrite Hout, lookup_fmap; [done|].
    by rewrite elem_of_sorted, elem_of_elements.
Qed.

(** A call within the contract that passes both checks returns a table. *)
Lemma demo_data_success names kwargs :
  unexpected kwargs = ∅ → Forall recognized names →
  0 < nlevels_of kwargs → 0 ≤ min_rows_of kwargs →
  ∃ data, demo_data names kwargs = inr data.
Proof.
  intros Hexp Hnames Hpos Hmin. rewrite demo_data_classified by done.
  cbv zeta. pose proof (balanced_design_size_pos _ names Hpos).
  pose proof (replicates_nonneg _ _ names Hpos Hmin).
  rewrite decide_False by lia.
  destruct (fill_numerical_spec
              (num_rows (nlevels_of kwargs) (min_rows_of kwargs) names)
              (sorted (elements (numerical_names names))) (seed 0)
              (Levels <$> categorical_table (nlevels_of kwargs)
                            (min_rows_of kwargs) names))
    as (data' & Hdata' & _); [|apply sorted_NoDup, NoDup_elements|by eauto].
  right. unfold num_rows. lia.
Qed.

End demo_data_phases.

(** * The data set of [demo_data] *)

Section demo_data_claims.
Context `{RandomState}.
Implicit Types (names : list string) (kwargs : gmap string Z).
Implicit Types (data : gmap string column).

Lemma elem_of_sorted_numerical names name :
  name ∈ numerical_names names →
  ∃ i, sorted (elements (numerical_names names)) !! i = Some name.
Proof.
  intros Hname. apply list_elem_of_lookup_1.
  by rewrite elem_of_sorted, elem_of_elements.
Qed.

Lemma demo_data_dom names kwargs data :
  0 < nlevels_of kwargs →
  demo_data names kwargs = inr data → dom data = list_to_set names.
Proof.
  intros Hpos (_ & Hnames & _ & _ & Hin & Hout)%demo_data_inr.
  apply set_eq. intros name. rewrite elem_of_dom, elem_of_list_to_set.
  destruct (decide (name ∈ numerical_names names)) as [Hnum|Hnum].
  - destruct (elem_of_sorted_numerical _ _ Hnum) as [i Hi].
    rewrite (Hin _ _ Hi). apply elem_of_numerical_names in Hnum as [_ ?].
    split; [done|by eexists].
  - rewrite (Hout _ Hnum), fmap_is_Some, <-elem_of_dom.
    rewrite categorical_table_dom, elem_of_categorical_names by done.
    split; [by intros [_ ?]|]. intros Hin'. split; [|done].
    rewrite Forall_forall in Hnames. destruct (Hnames _ Hin'); [done|].
    destruct Hnum. by apply elem_of_numerical_names.
Qed.

(** C4: every column of a successful call, categorical or numeric, has the
    same length, the least multiple of the balanced design size that is at
    least [min_rows]; the design size is 1 without categorical names, and
    then the length is [min_rows]; [demo_data("x", "y")] has two columns
    of length 5. *)
Theorem demo_data_row_count :
  (∀ names kwargs data,
     let nlevels := nlevels_of kwargs in
     let min_rows := min_rows_of kwargs in
     let balanced_size := balanced_design_size nlevels names in
     0 < nlevels → 0 ≤ min_rows →
     demo_data names kwargs = inr data →
     dom data = list_to_set names ∧
     ∃ rows : Z,
       (∀ name col, data !! name = Some col →
          Z.of_nat (column_len col) = rows) ∧
       min_rows ≤ rows ∧ (balanced_size | rows) ∧
       (∀ m, (balanced_size | m) → min_rows ≤ m → rows ≤ m) ∧
       (categorical_names names = ∅ → balanced_size = 1 ∧ rows = min_rows))
  ∧ ∃ data xs ys,
      demo_data ["x"; "y"] ∅ = inr data ∧
      data !! "x" = Some (Samples xs) ∧ data !! "y" = Some (Samples ys) ∧
      length xs = 5%nat ∧ length ys = 5%nat.
Proof.
  split.
  - intros names kwargs data. cbv zeta. intros Hpos Hmin Hdata.
    split; [by eapply demo_data_dom|].
    pose proof Hdata as (_ & _ & _ & _ & Hin & Hout)%demo_data_inr.
    pose proof (num_rows_least _ (min_rows_of kwargs) names Hpos) as [Hge Hleast].
    pose proof (replicates_nonneg _ _ names Hpos Hmin) as Hrep.
    pose proof (balanced_design_size_pos _ names Hpos) as Hsize.
    exists (num_rows (nlevels_of kwargs) (min_rows_of kwargs) names).
    split; [|split; [done|split; [|split]]].
    + intros name col Hcol.
      destruct (decide (name ∈ numerical_names names)) as [Hnum|Hnum].
      * destruct (elem_of_sorted_numerical _ _ Hnum) as [i Hi].
        rewrite (Hin _ _ Hi) in Hcol. injection Hcol as <-. simpl.
        rewrite length_block. unfold num_rows in *. lia.
      * rewrite (Hout _ Hnum) in Hcol.
        destruct (categorical_table _ _ _ !! name) as [labels|] eqn:Hl; [|done].
        injection Hcol as <-. simpl. by eapply categorical_table_length.
    + by apply Z.divide_factor_r.
    + intros m [k ->] Hm. by apply Hleast.
    + intros Hcat. unfold num_rows, replicates, balanced_design_size.
      rewrite Hcat, size_empty. simpl. split; [done|].
      rewrite Z.div_1_r. lia.
  - destruct (demo_data_success ["x"; "y"] ∅) as [data Hdata];
      [done|by repeat constructor|done..|].
    pose proof Hdata as (_ & _ & _ & _ & Hin & _)%demo_data_inr.
    exists data, (block (seed 0) 5 0), (block (seed 0) 5 1).
    split; [done|]. rewrite !length_block.
    split; [exact (Hin 0%nat "x" eq_refl)|].
    split; [exact (Hin 1%nat "y" eq_refl)|done].
Qed.

(** C5: a name whose first character is in 'a'..'n' is categorical with
    [nlevels] levels, one whose first character is in 'p'..'z' is numeric,
    and any other first character raises [PatsyError] for that name, as
    for [demo_data("a", "b", "__123")]. *)
Theorem demo_data_classification :
  (∀ c s,
     (is_categorical (String c s) ↔ (97 ≤ Ascii.N_of_ascii c ≤ 110)%N) ∧
     (is_numerical (String c s) ↔ (112 ≤ Ascii.N_of_ascii c ≤ 122)%N))
  ∧ (∀ nlevels name numerical categorical,
       (is_categorical name →
          classify_name nlevels name (numerical, categorical)
          = inr (numerical, <[name := nlevels]> categorical)) ∧
       (is_numerical name →
          classify_name nlevels name (numerical, categorical)
          = inr ({[name]} ∪ numerical, categorical)))
  ∧ (∀ names kwargs,
       unexpected kwargs = ∅ →
       (0 < nlevels_of kwargs → 0 < min_rows_of kwargs →
        Forall recognized names →
          ∃ data, demo_data names kwargs = inr data ∧
            ∀ name, name ∈ names →
              (is_categorical name →
                 ∃ labels, data !! name = Some (Levels labels) ∧
                   ∀ l, l ∈ labels
                        ↔ l ∈ level_labels name (nlevels_of kwargs)) ∧
              (is_numerical name → ∃ xs, data !! name = Some (Samples xs))) ∧
       (∀ before c s after,
          names = before ++ String c s :: after →
          Forall recognized before → ¬ recognized (String c s) →
          demo_data names kwargs = inl (PatsyError (String c s))))
  ∧ demo_data ["a"; "b"; "__123"] ∅ = inl (PatsyError "__123").
Proof.
  split; [|split; [|split]].
  - intros c s. unfold is_categorical, is_numerical, first_char_in.
    by rewrite !Is_true_true, char_in_a_n, char_in_p_z.
  - intros nlevels name numerical categorical. split; intros Hname.
    + by apply classify_name_categorical.
    + by apply classify_name_numerical.
  - intros names kwargs Hexp. split.
    + intros Hpos Hmin Hnames.
      destruct (demo_data_success names kwargs) as [data Hdata];
        [done..|lia|].
      exists data. split; [done|].
      pose proof Hdata as (_ & _ & _ & _ & Hin & Hout)%demo_data_inr.
      intros name Hname. split.
      * intros Hcat.
        assert (name ∉ numerical_names names) as Hnum.
        { rewrite elem_of_numerical_names.
          intros [Hnum _]. by apply (categorical_not_numerical name). }
        assert (name ∈ dom (categorical_table (nlevels_of kwargs)
                              (min_rows_of kwargs) names))
          as [labels Hlabels]%elem_of_dom.
        { by rewrite categorical_table_dom, elem_of_categorical_names. }
        exists labels. rewrite (Hout _ Hnum), Hlabels. split; [done|].
        intros l. by eapply categorical_table_labels.
      * intros Hnum.
        destruct (elem_of_sorted_numerical names name) as [i Hi];
          [by rewrite elem_of_numerical_names|].
        eexists. by apply (Hin i).
    + intros before c s after -> Hbefore Hbad.
      apply demo_data_unclassified; [done|].
      by rewrite classify_fail.
  - apply demo_data_unclassified; [done|].
    by apply (classify_fail _ ["a"; "b"] "__123" []);
      [repeat constructor|intros [[]|[]]].
Qed.


Lemma demo_data_one_numeric name :
  is_numerical name →
  sorted (elements (numerical_names [name])) = [name] →
  num_rows (nlevels_of ∅) (min_rows_of ∅) [name] = 5 →
  demo_data [name] ∅ = inr {[ name := Samples (block (seed 0) 5 0) ]}.
Proof.
  intros Hnum Hsorted Hrows.
  destruct (demo_data_success [name] ∅) as [data Hdata];
    [done|by apply Forall_singleton; right|done..|].
  rewrite Hdata. f_equal. apply map_eq. intros k.
  pose proof Hdata as (_ & _ & _ & _ & Hin & _)%demo_data_inr.
  rewrite Hsorted, Hrows in Hin.
  destruct (decide (k = name)) as [->|Hne].
  - rewrite lookup_singleton_eq. exact (Hin 0%nat name eq_refl).
  - rewrite lookup_singleton_ne by done. apply not_elem_of_dom.
    rewrite (demo_data_dom [name] ∅ data), elem_of_list_to_set by done.
    by intros ?%list_elem_of_singleton.
Qed.

(** C10: the i-th numeric name in sorted order holds samples
    [i * num_rows .. (i + 1) * num_rows - 1] of the stream seeded with 0,
    whatever the name is: [demo_data("x")] and [demo_data("y")] hold the
    same samples under their own names. *)
Theorem demo_data_numeric_blocks :
  (∀ names kwargs data i name,
     demo_data names kwargs = inr data →
     sorted (elements (numerical_names names)) !! i = Some name →
     let n := Z.to_nat
                (num_rows (nlevels_of kwargs) (min_rows_of kwargs) names) in
     data !! name = Some (Samples (nth_sample (seed 0) <$> seq (i * n) n)))
  ∧ ∃ xs, demo_data ["x"] ∅ = inr {[ "x" := Samples xs ]} ∧
          demo_data ["y"] ∅ = inr {[ "y" := Samples xs ]}.
Proof.
  split.
  - intros names kwargs data i name
      (_ & _ & _ & _ & Hin & _)%demo_data_inr Hi. by apply Hin.
  - exists (block (seed 0) 5 0).
    split; by apply demo_data_one_numeric.
Qed.

(** C8, as the code has it: the keyword options are checked before the
    names are classified, so an unknown option raises [TypeError] whatever
    the names are; a name that is not recognized raises its error only
    when every option is known; and a call within the contract raises
    nothing else, so every error precedes the generation of data. *)
Theorem demo_data_check_order names kwargs :
  (unexpected kwargs ≠ ∅ →
     demo_data names kwargs = inl (TypeError (unexpected kwargs))) ∧
  (unexpected kwargs = ∅ →
     ∀ before c s after,
       names = before ++ String c s :: after →
       Forall recognized before → ¬ recognized (String c s) →
       demo_data names kwargs = inl (PatsyError (String c s))) ∧
  (0 < nlevels_of kwargs → 0 ≤ min_rows_of kwargs →
     match demo_data names kwargs with
     | inr data => unexpected kwargs = ∅ ∧ Forall recognized names
     | inl e =>
         e = TypeError (unexpected kwargs) ∧ unexpected kwargs ≠ ∅ ∨
         ∃ before bad after,
           names = before ++ bad :: after ∧ Forall recognized before ∧
           ¬ recognized bad ∧ e = name_error bad
     end).
Proof.
  split; [apply demo_data_unexpected|]. split.
  - intros Hexp before c s after -> Hbefore Hbad.
    apply demo_data_unclassified; [done|]. by rewrite classify_fail.
  - intros Hpos Hmin.
    destruct (decide (unexpected kwargs = ∅)) as [Hexp|Hexp];
      [|rewrite demo_data_unexpected by done; by left].
    destruct (decide (Forall recognized names)) as [Hnames|Hnames].
    + by destruct (demo_data_success names kwargs) as [data ->].
    + destruct (first_unrecognized _ Hnames)
        as (before & bad & after & -> & Hbefore & Hbad).
      rewrite (demo_data_unclassified _ _ (name_error bad));
        [|done|by rewrite classify_fail].
      right. by exists before, bad, after.
Qed.

(** C7, as the code has it: an empty name that is reached by the loop
    raises [IndexError] at [name[0]], not [PatsyError]. *)
Theorem demo_data_empty_name before after kwargs :
  unexpected kwargs = ∅ → Forall recognized before →
  demo_data (before ++ "" :: after) kwargs = inl IndexError.
Proof.
  intros Hexp Hbefore. apply demo_data_unclassified; [done|].
  by rewrite classify_fail; [|done|intros [[]|[]]].
Qed.

End demo_data_claims.

(** * Concrete calls *)

(** The tests of the source; those of [demo_data] run with the counter
    as generator. *)
Example test_balanced_1 :
  balanced {[ "a" := 2; "b" := 3 ]} =
  {[ "a" := ["a1"; "a1"; "a1"; "a2"; "a2"; "a2"];
     "b" := ["b1"; "b2"; "b3"; "b1"; "b2"; "b3"] ]}.
Proof. vm_compute. reflexivity. Qed.

Example test_balanced_2 :
  balanced {[ "a" := 2; "b" := 3; "repeat" := 2 ]} =
  {[ "a" := ["a1"; "a1"; "a1"; "a2"; "a2"; "a2";
             "a1"; "a1"; "a1"; "a2"; "a2"; "a2"];
     "b" := ["b1"; "b2"; "b3"; "b1"; "b2"; "b3";
             "b1"; "b2"; "b3"; "b1"; "b2"; "b3"] ]}.
Proof. vm_compute. reflexivity. Qed.

Example test_demo_data_1 :
  @demo_data counter ["a"; "b"; "x"] ∅ =
  inr {[ "a" := Levels ["a1"; "a1"; "a2"; "a2"; "a1"; "a1"; "a2"; "a2"];
         "b" := Levels ["b1"; "b2"; "b1"; "b2"; "b1"; "b2"; "b1"; "b2"];
         "x" := Samples (H:=counter) [0; 1; 2; 3; 4; 5; 6; 7]%nat ]}.
Proof. vm_compute. reflexivity. Qed.

Example test_demo_data_2 :
  @demo_data counter ["a"; "b"] {[ "asdfasdf" := 123 ]}
  = inl (TypeError {[ "asdfasdf" := 123 ]}).
Proof. vm_compute. reflexivity. Qed.

Lemma demo_data_row_count_witness :
  0 < nlevels_of {[ "min_rows" := 10 ]} ∧
  0 ≤ min_rows_of {[ "min_rows" := 10 ]} ∧
  ∃ data,
    @demo_data counter ["a"; "b"; "x"] {[ "min_rows" := 10 ]} = inr data ∧
    ∀ name col, data !! name = Some col → Z.of_nat (column_len col) = 12.
Proof.
  assert (0 < nlevels_of {[ "min_rows" := 10 ]}) as Hpos
    by (vm_compute; reflexivity).
  assert (0 ≤ min_rows_of {[ "min_rows" := 10 ]}) as Hmin
    by (vm_compute; congruence).
  split; [exact Hpos|]. split; [exact Hmin|].
  eexists. split; [vm_compute; reflexivity|].
  destruct (proj1 (@demo_data_row_count counter) ["a"; "b"; "x"]
              {[ "min_rows" := 10 ]} _ Hpos Hmin eq_refl)
    as [_ (rows & Hlen & Hge & Hdiv & Hleast & _)].
  assert (balanced_design_size (nlevels_of {[ "min_rows" := 10 ]})
            ["a"; "b"; "x"] = 4) as Hsize by (vm_compute; reflexivity).
  assert (min_rows_of {[ "min_rows" := 10 ]} = 10) as Hrows
    by (vm_compute; reflexivity).
  rewrite Hsize in Hdiv, Hleast. rewrite Hrows in Hge, Hleast.
  specialize (Hleast 12 ltac:(by exists 3)).
  destruct Hdiv as [k ->]. intros name col Hcol.
  rewrite (Hlen _ _ Hcol). lia.
Defined.

Lemma demo_data_classification_witness :
  unexpected ∅ = ∅ ∧ Forall recognized ["a"] ∧ ¬ recognized "1x" ∧
  @demo_data counter ["a"; "1x"] ∅ = inl (PatsyError "1x").
Proof.
  assert (Forall recognized ["a"]) as Hbefore
    by (apply Forall_singleton; left; vm_compute; exact I).
  assert (¬ recognized "1x") as Hbad by (intros [[]|[]]).
  assert (unexpected ∅ = ∅) as Hexp by (vm_compute; reflexivity).
  repeat (split; [assumption|]).
  destruct (@demo_data_classification counter) as (_ & _ & Hcalls & _).
  destruct (Hcalls ["a"; "1x"] ∅ Hexp) as [_ Hfail].
  exact (Hfail ["a"] _ _ [] eq_refl Hbefore Hbad).
Defined.


Lemma demo_data_numeric_blocks_witness :
  ∃ data,
    @demo_data counter ["y"; "x"] ∅ = inr data ∧
    sorted (elements (numerical_names ["y"; "x"])) !! 1%nat = Some "y" ∧
    data !! "y" = Some (Samples (H:=counter) [5; 6; 7; 8; 9]%nat).
Proof.
  eexists. split; [vm_compute; reflexivity|].
  split; [vm_compute; reflexivity|].
  exact (proj1 (@demo_data_numeric_blocks counter) ["y"; "x"] ∅ _ 1%nat "y"
           eq_refl eq_refl).
Defined.

Lemma demo_data_check_order_witness :
  unexpected {[ "foo" := 1; "nlevels" := 3 ]} ≠ ∅ ∧
  @demo_data counter ["a"; "?"] {[ "foo" := 1; "nlevels" := 3 ]}
  = inl (TypeError {[ "foo" := 1 ]}).
Proof.
  assert (unexpected {[ "foo" := 1; "nlevels" := 3 ]} ≠ ∅) as Hne
    by (vm_compute; discriminate).
  split; [exact Hne|].
  exact (proj1 (@demo_data_check_order counter ["a"; "?"]
                  {[ "foo" := 1; "nlevels" := 3 ]}) Hne).
Defined.

(** For the claim as the spec words it (C8): with a bad name and an unknown
    option together, the error is [TypeError], not [PatsyError]. *)
Lemma demo_data_unknown_option_first :
  @demo_data counter ["__123"] {[ "asdfasdf" := 123 ]}
  = inl (TypeError {[ "asdfasdf" := 123 ]}) ∧
  @demo_data counter ["__123"] {[ "asdfasdf" := 123 ]}
  ≠ inl (PatsyError "__123").
Proof. split; [vm_compute; reflexivity|vm_compute; discriminate]. Qed.

Lemma demo_data_empty_name_witness :
  unexpected ∅ = ∅ ∧ Forall recognized ["a"] ∧
  @demo_data counter (["a"] ++ "" :: ["x"]) ∅ = inl IndexError.
Proof.
  assert (Forall recognized ["a"]) as Hbefore
    by (apply Forall_singleton; left; vm_compute; exact I).
  assert (unexpected ∅ = ∅) as Hexp by (vm_compute; reflexivity).
  split; [exact Hexp|]. split; [exact Hbefore|].
  exact (@demo_data_empty_name counter ["a"] ["x"] ∅ Hexp Hbefore).
Defined.

(** For the claim as the spec words it (C7): the empty name does not
    raise [PatsyError]. *)
Lemma demo_data_empty_name_not_patsy :
  @demo_data counter [""] ∅ = inl IndexError ∧
  @demo_data counter [""] ∅ ≠ inl (PatsyError "").
Proof. split; [vm_compute; reflexivity|vm_compute; discriminate]. Qed.

(** * Further properties of [balanced] *)

Section occurrences.
Context {A : Type} `{EqDecision A}.
Local Open Scope nat_scope.
Implicit Types (x : A) (l p c : list A) (pools : list (list A)).

Lemma occurrences_cons x y l :
  occurrences x (y :: l)
  = (if decide (y = x) then 1 else 0) + occurrences x l.
Proof. unfold occurrences. rewrite filter_cons. by case_decide. Qed.

Lemma occurrences_app x l l' :
  occurrences x (l ++ l') = occurrences x l + occurrences x l'.
Proof. unfold occurrences. by rewrite filter_app, length_app. Qed.

Lemma occurrences_not_elem_of x l : x ∉ l → occurrences x l = 0.
Proof.
  induction l as [|y l IH]; [done|]. intros [Hne Hl]%not_elem_of_cons.
  rewrite occurrences_cons, IH by done. by rewrite decide_False.
Qed.

Lemma occurrences_NoDup x l : NoDup l → x ∈ l → occurrences x l = 1.
Proof.
  induction 1 as [|y l Hy Hl IH]; intros Hx.
  { by apply elem_of_nil in Hx. }
  rewrite occurrences_cons. case_decide as Hyx.
  - subst y. by rewrite occurrences_not_elem_of.
  - rewrite IH; [done|]. by apply elem_of_cons in Hx as [->|].
Qed.

Lemma occurrences_replicate x y n :
  occurrences x (replicate n y) = if decide (y = x) then n else 0.
Proof.
  induction n as [|n IH]; [by case_decide|].
  simpl replicate. rewrite occurrences_cons, IH. by case_decide.
Qed.

Lemma occurrences_tile x n l : occurrences x (tile n l) = n * occurrences x l.
Proof.
  induction n as [|n IH]; [done|].
  rewrite tile_S, occurrences_app, IH. lia.
Qed.

Lemma occurrences_stretch x n l :
  occurrences x (stretch n l) = n * occurrences x l.
Proof.
  induction l as [|y l IH]; [unfold occurrences; simpl; lia|].
  rewrite stretch_cons, occurrences_app, occurrences_replicate, IH.
  rewrite occurrences_cons. case_decide; lia.
Qed.

(** In the product of the pools every element of a pool comes up equally
    often in its column. *)
Lemma occurrences_column x pools j c p :
  columns pools !! j = Some c → pools !! j = Some p →
  occurrences x c * length p = occurrences x p * product_size pools.
Proof.
  revert j c. induction pools as [|p' ps IH]; intros [|j] c; simpl; try done.
  - intros [= <-] [= <-]. rewrite occurrences_stretch. lia.
  - rewrite list_lookup_fmap.
    destruct (columns ps !! j) as [c'|] eqn:Hc'; [|done].
    intros [= <-] Hp. rewrite occurrences_tile.
    pose proof (IH _ _ Hc' Hp). nia.
Qed.

(** Every choice of one element per pool is a row of the product. *)
Lemma columns_row_surj pools (t : list A) :
  Forall2 (λ x p, x ∈ p) t pools →
  ∃ i, i < product_size pools ∧
       ∀ j c, columns pools !! j = Some c → c !! i = t !! j.
Proof.
  induction 1 as [|x p t ps Hx _ IH]; simpl.
  { exists 0. split; [lia|]. by intros []. }
  destruct IH as (i' & Hi' & Hrow).
  apply list_elem_of_lookup_1 in Hx as [a Ha].
  pose proof (lookup_lt_Some _ _ _ Ha) as Hlt.
  set (q := product_size ps) in *.
  exists (a * q + i'). split; [nia|]. intros [|j] c; simpl.
  - intros [= <-]. rewrite lookup_stretch by lia.
    by rewrite Nat.div_add_l, Nat.div_small, Nat.add_0_r by lia.
  - rewrite list_lookup_fmap.
    destruct (columns ps !! j) as [c'|] eqn:Hc'; [|done].
    intros [= <-]. pose proof (length_column _ _ _ Hc') as Hlen.
    rewrite lookup_tile by (rewrite Hlen; fold q; nia).
    rewrite Hlen. fold q.
    rewrite Nat.add_comm, Nat.Div0.mod_add, Nat.mod_small by lia.
    by apply Hrow.
Qed.

Lemma itertools_product_nil pools :
  [] ∈ pools → itertools_product pools = [].
Proof.
  induction pools as [|p ps IH]; intros Hnil.
  { by apply elem_of_nil in Hnil. }
  apply elem_of_cons in Hnil as [<-|Hnil]; [done|].
  simpl. rewrite IH by done. by induction p.
Qed.

Lemma elem_of_tile_1 x n l : x ∈ tile n l → x ∈ l.
Proof.
  induction n as [|n IH]; [by intros ?%elem_of_nil|].
  rewrite tile_S, elem_of_app. tauto.
Qed.

Lemma elem_of_column_1 x pools j c p :
  columns pools !! j = Some c → pools !! j = Some p → x ∈ c → x ∈ p.
Proof.
  revert j c. induction pools as [|p' ps IH]; intros [|j] c; simpl; try done.
  - intros [= <-] [= <-]. unfold stretch. rewrite list_elem_of_bind.
    by intros (y & [-> _]%elem_of_replicate & Hy).
  - rewrite list_lookup_fmap.
    destruct (columns ps !! j) as [c'|] eqn:Hc'; [|done].
    intros [= <-] Hp Hx%elem_of_tile_1. by eapply IH.
Qed.

End occurrences.

Section balanced_further.
Context (kwargs : gmap string Z).
Local Abbreviation reps := (default 1 (kwargs !! "repeat")).
Local Abbreviation factors := (delete "repeat" kwargs).
Local Abbreviation names := (sorted (keys factors)).
Local Abbreviation levels :=
  ((λ name, level_labels name (factors !!! name)) <$> names).

Lemma levels_lookup j name :
  names !! j = Some name →
  levels !! j = Some (level_labels name (factors !!! name)).
Proof. intros Hj. by rewrite list_lookup_fmap, Hj. Qed.

Lemma balanced_nonpositive name c :
  factors !! name = Some c → c ≤ 0 → balanced kwargs = ∅.
Proof.
  intros Hname Hc. unfold balanced. cbv zeta.
  rewrite itertools_product_nil; [cbn [zip_star]; by rewrite zip_with_nil_r|].
  apply list_elem_of_fmap. exists name. split.
  - symmetry. apply length_zero_iff_nil.
    rewrite length_level_labels, (lookup_total_correct _ _ _ Hname). lia.
  - rewrite elem_of_sorted, elem_of_keys. by eexists.
Qed.

(** Some column exists only when every level count is positive. *)
Lemma balanced_lookup_positive name col :
  balanced kwargs !! name = Some col → map_Forall (λ _ c, 0 < c) factors.
Proof.
  intros Hcol. destruct (decide (map_Forall (λ _ c, 0 < c) factors))
    as [|Hneg]; [done|].
  apply map_not_Forall in Hneg as (name' & c & Hname' & Hc); [|apply _].
  rewrite (balanced_nonpositive name' c) in Hcol by (done || lia).
  by rewrite lookup_empty in Hcol.
Qed.

End balanced_further.

(** X1: the design is balanced: in the column of a factor with [c]
    levels, every level comes up the same number of times,
    repeat * product of the level counts / c. *)
Theorem balanced_levels_equally_often (kwargs : gmap string Z) name c col l :
  let repeat := default 1 (kwargs !! "repeat") in
  let factors := delete "repeat" kwargs in
  map_Forall (λ _ c, 0 < c) factors → 0 ≤ repeat →
  factors !! name = Some c → balanced kwargs !! name = Some col →
  l ∈ level_labels name c →
  Z.of_nat (occurrences l col) * c = repeat * np_prod (values factors).
Proof.
  cbv zeta. intros Hpos Hrep Hname Hcol Hl.
  pose proof Hcol as (j & c' & Hj & Hc' & ->)%balanced_lookup_inv; [|done].
  pose proof (levels_lookup kwargs j name Hj) as Hp.
  rewrite (lookup_total_correct _ _ _ Hname) in Hp.
  pose proof (occurrences_column l _ _ _ _ Hc' Hp) as Hocc.
  rewrite (occurrences_NoDup l _ (NoDup_level_labels name c) Hl) in Hocc.
  rewrite length_level_labels, product_size_levels in Hocc by done.
  rewrite list_mul_tile, occurrences_tile.
  assert (0 < c) by by eapply Hpos.
  assert (0 < np_prod (values (delete "repeat" kwargs))).
  { apply np_prod_pos, Forall_forall. intros c'' Hc''.
    apply list_elem_of_fmap in Hc'' as [[n v] [-> Hn%elem_of_map_to_list]].
    by eapply Hpos. }
  nia.
Qed.

Lemma balanced_levels_equally_often_witness :
  map_Forall (λ _ c, 0 < c)
    (delete "repeat" ({[ "a" := 2; "b" := 3; "repeat" := 2 ]} : gmap string Z)) ∧
  0 ≤ default 1 (({[ "a" := 2; "b" := 3; "repeat" := 2 ]} : gmap string Z)
                   !! "repeat") ∧
  occurrences "b2"
    ["b1"; "b2"; "b3"; "b1"; "b2"; "b3"; "b1"; "b2"; "b3"; "b1"; "b2"; "b3"]
  = 4%nat.
Proof.
  assert (map_Forall (λ _ c, 0 < c)
            (delete "repeat"
               ({[ "a" := 2; "b" := 3; "repeat" := 2 ]} : gmap string Z)))
    as Hpos by (apply (bool_decide_unpack _); vm_compute; exact I).
  assert (0 ≤ default 1 (({[ "a" := 2; "b" := 3; "repeat" := 2 ]}
                            : gmap string Z) !! "repeat"))
    as Hrep by (vm_compute; congruence).
  split; [exact Hpos|]. split; [exact Hrep|].
  pose proof (balanced_levels_equally_often
                {[ "a" := 2; "b" := 3; "repeat" := 2 ]} "b" 3
                ["b1"; "b2"; "b3"; "b1"; "b2"; "b3";
                 "b1"; "b2"; "b3"; "b1"; "b2"; "b3"] "b2"
                Hpos Hrep ltac:(vm_compute; reflexivity)
                ltac:(vm_compute; reflexivity)
                ltac:(vm_compute; do 1 right; left)) as Hocc.
  change (np_prod _) with 6 in Hocc. change (default 1 _) with 2 in Hocc. lia.
Defined.

(** X2: the design is a full factorial: every choice of one level per
    factor is a row of the first replicate. *)
Theorem balanced_full_factorial (kwargs : gmap string Z)
    (choice : gmap string string) :
  let repeat := default 1 (kwargs !! "repeat") in
  let factors := delete "repeat" kwargs in
  map_Forall (λ _ c, 0 < c) factors → 0 < repeat →
  dom choice = dom factors →
  (∀ name l, choice !! name = Some l →
     l ∈ level_labels name (factors !!! name)) →
  ∃ i, (i < Z.to_nat (np_prod (values factors)))%nat ∧
       row (balanced kwargs) i = choice.
Proof.
  cbv zeta. intros Hpos Hrep Hdom Hchoice.
  destruct (columns_row_surj
              ((λ name, level_labels name (delete "repeat" kwargs !!! name))
                 <$> sorted (keys (delete "repeat" kwargs)))
              ((λ name, choice !!! name)
                 <$> sorted (keys (delete "repeat" kwargs))))
    as (i & Hi & Hrow).
  { apply Forall2_fmap, Forall_Forall2_diag, Forall_forall.
    intros name Hname%elem_of_names. apply Hchoice.
    apply lookup_lookup_total. by rewrite <-elem_of_dom, Hdom, elem_of_dom. }
  rewrite product_size_levels in Hi by done.
  exists i. split; [done|]. apply map_eq. intros name.
  unfold row. rewrite lookup_omap.
  destruct (delete "repeat" kwargs !! name) as [c|] eqn:Hname.
  - assert (name ∈ sorted (keys (delete "repeat" kwargs)))
      as [j Hj]%list_elem_of_lookup_1 by (rewrite elem_of_names; eauto).
    destruct (lookup_lt_is_Some_2
                (columns ((λ name, level_labels name
                                     (delete "repeat" kwargs !!! name))
                            <$> sorted (keys (delete "repeat" kwargs)))) j)
      as [col Hcol].
    { rewrite length_columns, length_fmap. by eapply lookup_lt_Some. }
    rewrite (balanced_lookup kwargs Hpos _ _ _ Hj Hcol). simpl.
    pose proof (length_column _ _ _ Hcol) as Hlen.
    rewrite product_size_levels in Hlen by done.
    rewrite list_mul_tile, lookup_tile_prefix by lia.
    rewrite (Hrow _ _ Hcol), list_lookup_fmap, Hj. simpl.
    symmetry. apply lookup_lookup_total.
    rewrite <-elem_of_dom, Hdom, elem_of_dom. eauto.
  - rewrite balanced_lookup_None by done. simpl. symmetry.
    by rewrite <-not_elem_of_dom, Hdom, not_elem_of_dom.
Qed.

Lemma balanced_full_factorial_witness :
  map_Forall (λ _ c, 0 < c)
    (delete "repeat" ({[ "a" := 2; "b" := 3 ]} : gmap string Z)) ∧
  0 < default 1 (({[ "a" := 2; "b" := 3 ]} : gmap string Z) !! "repeat") ∧
  ∃ i, (i < 6)%nat ∧
       row (balanced {[ "a" := 2; "b" := 3 ]}) i
       = {[ "a" := "a2"; "b" := "b1" ]}.
Proof.
  assert (map_Forall (λ _ c, 0 < c)
            (delete "repeat" ({[ "a" := 2; "b" := 3 ]} : gmap string Z)))
    as Hpos by (apply (bool_decide_unpack _); vm_compute; exact I).
  assert (0 < default 1 (({[ "a" := 2; "b" := 3 ]} : gmap string Z)
                           !! "repeat"))
    as Hrep by (vm_compute; reflexivity).
  split; [exact Hpos|]. split; [exact Hrep|].
  apply (balanced_full_factorial {[ "a" := 2; "b" := 3 ]}
           {[ "a" := "a2"; "b" := "b1" ]} Hpos Hrep).
  - vm_compute. reflexivity.
  - intros name l Hl.
    destruct (decide (name = "a")) as [->|Ha];
      [|destruct (decide (name = "b")) as [->|Hb]].
    + vm_compute in Hl. injection Hl as <-. vm_compute. right; left.
    + vm_compute in Hl. injection Hl as <-. vm_compute. left.
    + by rewrite lookup_insert_ne, lookup_singleton_ne in Hl.
Defined.

(** X3: the table is empty exactly when there is no factor or some level
    count is zero or negative; one such count removes every column, also
    those of the factors whose counts are positive. *)
Theorem balanced_empty_iff (kwargs : gmap string Z) :
  let factors := delete "repeat" kwargs in
  balanced kwargs = ∅
  ↔ factors = ∅ ∨ ∃ name c, factors !! name = Some c ∧ c ≤ 0.
Proof.
  cbv zeta. split.
  - intros Hempty.
    destruct (decide (map_Forall (λ _ c, 0 < c) (delete "repeat" kwargs)))
      as [Hpos|Hneg].
    + left. apply (dom_empty_iff_L (D:=gset string)).
      by rewrite <-(balanced_dom kwargs Hpos), Hempty, dom_empty_L.
    + right. apply map_not_Forall in Hneg as (name & c & Hname & Hc);
        [|apply _].
      exists name, c. split; [done|lia].
  - intros [Hnone|(name & c & Hname & Hc)].
    + unfold balanced. cbv zeta. rewrite Hnone. unfold keys.
      by rewrite map_to_list_empty.
    + by eapply balanced_nonpositive.
Qed.

(** X4: a column is never invented: a name of the table is a factor, all
    level counts are then positive, and the column holds labels of that
    factor only. *)
Theorem balanced_columns_sound (kwargs : gmap string Z) name col :
  balanced kwargs !! name = Some col →
  ∃ c, delete "repeat" kwargs !! name = Some c ∧ 0 < c ∧
       ∀ l, l ∈ col → l ∈ level_labels name c.
Proof.
  intros Hcol. pose proof (balanced_lookup_positive _ _ _ Hcol) as Hpos.
  pose proof Hcol as (j & c' & Hj & Hc' & ->)%balanced_lookup_inv; [|done].
  assert (is_Some (delete "repeat" kwargs !! name)) as [c Hname].
  { apply elem_of_names. by eapply list_elem_of_lookup_2. }
  exists c. split; [done|]. split; [by eapply Hpos|].
  intros l Hl%elem_of_tile_1.
  pose proof (levels_lookup kwargs j name Hj) as Hp.
  rewrite (lookup_total_correct _ _ _ Hname) in Hp.
  by eapply elem_of_column_1.
Qed.

Lemma balanced_columns_sound_witness :
  balanced {[ "a" := 1; "b" := 2 ]} !! "b" = Some ["b1"; "b2"] ∧
  ∃ c, delete "repeat" ({[ "a" := 1; "b" := 2 ]} : gmap string Z) !! "b"
       = Some c ∧ 0 < c ∧
       ∀ l, l ∈ ["b1"; "b2"] → l ∈ level_labels "b" c.
Proof.
  assert (balanced {[ "a" := 1; "b" := 2 ]} !! "b" = Some ["b1"; "b2"])
    as Hcol by (vm_compute; reflexivity).
  split; [exact Hcol|].
  exact (balanced_columns_sound _ _ _ Hcol).
Defined.

(** X5: with positive level counts and a repeat that is zero or negative
    the table keeps one column per factor and every column is empty. *)
Theorem balanced_nonpositive_repeat (kwargs : gmap string Z) :
  let repeat := default 1 (kwargs !! "repeat") in
  let factors := delete "repeat" kwargs in
  map_Forall (λ _ c, 0 < c) factors → repeat ≤ 0 →
  dom (balanced kwargs) = dom factors ∧
  ∀ name col, balanced kwargs !! name = Some col → col = [].
Proof.
  cbv zeta. intros Hpos Hrep. split; [by apply balanced_dom|].
  intros name col (j & c & _ & _ & ->)%balanced_lookup_inv; [|done].
  rewrite list_mul_tile. by replace (Z.to_nat _) with 0%nat by lia.
Qed.

Lemma balanced_nonpositive_repeat_witness :
  map_Forall (λ _ c, 0 < c)
    (delete "repeat" ({[ "a" := 2; "repeat" := -1 ]} : gmap string Z)) ∧
  default 1 (({[ "a" := 2; "repeat" := -1 ]} : gmap string Z) !! "repeat")
  ≤ 0 ∧
  balanced {[ "a" := 2; "repeat" := -1 ]} !! "a" = Some [].
Proof.
  assert (map_Forall (λ _ c, 0 < c)
            (delete "repeat"
               ({[ "a" := 2; "repeat" := -1 ]} : gmap string Z)))
    as Hpos by (apply (bool_decide_unpack _); vm_compute; exact I).
  assert (default 1 (({[ "a" := 2; "repeat" := -1 ]} : gmap string Z)
                       !! "repeat") ≤ 0)
    as Hrep by (vm_compute; congruence).
  split; [exact Hpos|]. split; [exact Hrep|].
  destruct (balanced {[ "a" := 2; "repeat" := -1 ]} !! "a")
    as [col|] eqn:Hcol; [|vm_compute in Hcol; discriminate].
  f_equal. exact (proj2 (balanced_nonpositive_repeat _ Hpos Hrep) _ _ Hcol).
Defined.

(** X6: the labels of a factor are pairwise distinct, there are
    max(level_count, 0) of them, and each is the name followed by the
    decimal form of an index in 1..level_count. *)
Theorem level_labels_distinct name level_count :
  NoDup (level_labels name level_count) ∧
  length (level_labels name level_count) = Z.to_nat level_count ∧
  ∀ l, l ∈ level_labels name level_count
       ↔ ∃ i, 1 ≤ i ≤ level_count ∧ l = name +:+ pretty i.
Proof.
  split; [apply NoDup_level_labels|]. split; [apply length_level_labels|].
  intros l. unfold level_labels. rewrite list_elem_of_fmap.
  split; intros (i & Hi & Hl).
  - apply elem_of_seqZ in Hl. exists i. split; [lia|done].
  - exists i. split; [done|]. apply elem_of_seqZ. lia.
Qed.

(** * Further properties of [demo_data] *)

(** Passing [repeat] repeats every column of the table without it. *)
Lemma balanced_with_repeat (factors : gmap string Z) (k : Z) :
  factors !! "repeat" = None →
  balanced (<["repeat" := k]> factors)
  = (λ col, list_mul col k) <$> balanced factors.
Proof.
  intros Hnone. unfold balanced. cbv zeta.
  rewrite lookup_insert_eq, Hnone, delete_insert_eq, delete_id by done. simpl.
  rewrite (fmap_foldl_insert_zip (λ c, list_mul c 1) (λ c, list_mul c k)
             (λ c, list_mul c k)).
  - by rewrite fmap_empty.
  - intros c. by rewrite list_mul_1.
Qed.

Lemma names_as_set_classes names1 names2 :
  (∀ name, name ∈ names1 ↔ name ∈ names2) →
  categorical_names names1 = categorical_names names2 ∧
  numerical_names names1 = numerical_names names2.
Proof.
  intros Hnames. split; apply set_eq; intros name.
  - by rewrite !elem_of_categorical_names, Hnames.
  - by rewrite !elem_of_numerical_names, Hnames.
Qed.

Section demo_data_further.
Context `{RandomState}.
Implicit Types (names : list string) (kwargs : gmap string Z).
Implicit Types (data : gmap string column).

(** X7: the names are taken as a set: calls whose recognized names
    differ only in order or in repetitions return the same result. *)
Theorem demo_data_names_as_set names1 names2 kwargs :
  Forall recognized names1 →
  (∀ name, name ∈ names1 ↔ name ∈ names2) →
  demo_data names1 kwargs = demo_data names2 kwargs.
Proof.
  intros Hnames1 Hsame.
  assert (Forall recognized names2) as Hnames2.
  { rewrite Forall_forall in Hnames1 |- *. intros name Hname.
    by apply Hnames1, Hsame. }
  destruct (decide (unexpected kwargs = ∅)) as [Hexp|Hexp];
    [|by rewrite !demo_data_unexpected].
  rewrite !demo_data_classified by done.
  destruct (names_as_set_classes _ _ Hsame) as [Hcat Hnum].
  unfold num_rows, categorical_table, replicates, balanced_design_size.
  by rewrite Hcat, Hnum.
Qed.

(** X8: the categorical columns of a successful call are those of
    [balanced] called on the categorical names alone, each with [nlevels]
    levels, every column repeated as often as the row count asks. *)
Theorem demo_data_categorical_part names kwargs data name :
  let nlevels := nlevels_of kwargs in
  let min_rows := min_rows_of kwargs in
  demo_data names kwargs = inr data → is_categorical name →
  data !! name
  = (λ col, Levels (list_mul col (replicates nlevels min_rows names)))
      <$> balanced (gset_to_gmap nlevels (categorical_names names)) !! name.
Proof.
  cbv zeta. intros (_ & _ & _ & _ & _ & Hout)%demo_data_inr Hcat.
  rewrite Hout.
  - unfold categorical_table. rewrite balanced_with_repeat.
    + rewrite lookup_fmap. by destruct (balanced _ !! name).
    + apply lookup_gset_to_gmap_None, repeat_not_categorical.
  - rewrite elem_of_numerical_names. intros [Hnum _].
    by apply (categorical_not_numerical name).
Qed.

(** X9: a successful call within the contract returns at least
    [min_rows] rows and fewer than one more replicate of the design. *)
Theorem demo_data_row_bounds names kwargs data name col :
  let nlevels := nlevels_of kwargs in
  let min_rows := min_rows_of kwargs in
  0 < nlevels → 0 ≤ min_rows →
  demo_data names kwargs = inr data → data !! name = Some col →
  min_rows ≤ Z.of_nat (column_len col)
  < min_rows + balanced_design_size nlevels names.
Proof.
  cbv zeta. intros Hpos Hmin Hdata Hcol.
  pose proof Hdata as (_ & _ & _ & _ & Hin & Hout)%demo_data_inr.
  assert (Z.of_nat (column_len col)
          = num_rows (nlevels_of kwargs) (min_rows_of kwargs) names) as ->.
  { pose proof (replicates_nonneg _ _ names Hpos Hmin).
    pose proof (balanced_design_size_pos _ names Hpos).
    destruct (decide (name ∈ numerical_names names)) as [Hnum|Hnum].
    - destruct (elem_of_sorted_numerical _ _ Hnum) as [i Hi].
      rewrite (Hin _ _ Hi) in Hcol. injection Hcol as <-. simpl.
      rewrite length_block. unfold num_rows in *. lia.
    - rewrite (Hout _ Hnum) in Hcol.
      destruct (categorical_table _ _ _ !! name) as [labels|] eqn:Hl; [|done].
      injection Hcol as <-. simpl. by eapply categorical_table_length. }
  pose proof (balanced_design_size_pos _ names Hpos) as Hsize.
  unfold num_rows, replicates.
  set (b := balanced_design_size (nlevels_of kwargs) names) in *.
  pose proof (Z.div_mod (- min_rows_of kwargs) b) as Hdiv.
  pose proof (Z.mod_pos_bound (- min_rows_of kwargs) b Hsize) as Hmod. nia.
Qed.

End demo_data_further.

Lemma demo_data_names_as_set_witness :
  Forall recognized ["x"; "a"; "x"] ∧
  (∀ name, name ∈ ["x"; "a"; "x"] ↔ name ∈ ["a"; "x"]) ∧
  @demo_data counter ["x"; "a"; "x"] ∅ = @demo_data counter ["a"; "x"] ∅.
Proof.
  assert (Forall recognized ["x"; "a"; "x"]) as Hnames
    by (apply (bool_decide_unpack _); vm_compute; exact I).
  assert (∀ name, name ∈ ["x"; "a"; "x"] ↔ name ∈ ["a"; "x"]) as Hsame
    by (intros name; rewrite !elem_of_cons, elem_of_nil; tauto).
  split; [exact Hnames|]. split; [exact Hsame|].
  exact (@demo_data_names_as_set counter _ _ ∅ Hnames Hsame).
Defined.

Lemma demo_data_categorical_part_witness :
  ∃ data,
    @demo_data counter ["a"; "x"] ∅ = inr data ∧ is_categorical "a" ∧
    data !! "a" = Some (Levels ["a1"; "a2"; "a1"; "a2"; "a1"; "a2"]).
Proof.
  destruct (@demo_data counter ["a"; "x"] ∅) as [e|data] eqn:Hdata;
    [vm_compute in Hdata; discriminate|].
  exists data. split; [done|]. split; [exact I|].
  rewrite (@demo_data_categorical_part counter _ _ _ "a" Hdata I).
  vm_compute. reflexivity.
Defined.

Lemma demo_data_row_bounds_witness :
  0 < nlevels_of {[ "min_rows" := 10 ]} ∧
  0 ≤ min_rows_of {[ "min_rows" := 10 ]} ∧
  ∃ data col,
    @demo_data counter ["a"; "b"; "x"] {[ "min_rows" := 10 ]} = inr data ∧
    data !! "x" = Some col ∧ 10 ≤ Z.of_nat (column_len col) < 10 + 4.
Proof.
  assert (0 < nlevels_of {[ "min_rows" := 10 ]}) as Hpos
    by (vm_compute; reflexivity).
  assert (0 ≤ min_rows_of {[ "min_rows" := 10 ]}) as Hmin
    by (vm_compute; congruence).
  split; [exact Hpos|]. split; [exact Hmin|].
  destruct (@demo_data counter ["a"; "b"; "x"] {[ "min_rows" := 10 ]})
    as [e|data] eqn:Hdata; [vm_compute in Hdata; discriminate|].
  destruct (data !! "x") as [col|] eqn:Hcol.
  - exists data, col. split; [done|]. split; [done|].
    exact (@demo_data_row_bounds counter _ _ _ _ _ Hpos Hmin Hdata Hcol).
  - exfalso. apply not_elem_of_dom in Hcol.
    rewrite (@demo_data_dom counter _ _ _ Hpos Hdata) in Hcol.
    apply Hcol. vm_compute. tauto.
Defined.
